(** * A shallow embedding of [vae.py] (auto-encoding variational Bayes)

    The script evaluates two feed-forward networks on NumPy arrays, estimates
    the evidence lower bound with one Monte Carlo sample and maximises it
    with Adam.  The embedding follows the source function by function.

    Numbers.  Python floats are modelled by the real numbers of the Standard
    Library: unless a statement says otherwise it is about exact real
    arithmetic, rounding is outside the model.  Where NumPy would leave the
    reals (the logarithm of a non-positive number gives [-inf] or [nan]) the
    model raises [FloatingPointError], the exception NumPy itself raises
    under [np.errstate(all='raise')].  The one place where rounding decides
    a sign, the divergence [compute_KL], is embedded a second time over the
    binary64 numbers of IEEE 754 (module [Float64]).

    Arrays.  A one-dimensional array is a list of reals, a two-dimensional
    array is its column count together with the list of its rows (the column
    count is kept so that an array with no row still has a shape).  NumPy's
    shape errors ([np.dot] on unaligned shapes, operands that do not
    broadcast) are [ValueError], an index out of range is [IndexError].

    Random numbers.  The global generator of [numpy.random] is a state that
    every draw advances; it is modelled by the tape of its future outputs. *)

From Corelib Require Import PrimFloat.
From Stdlib Require Import Reals Lra Lia List Arith Bool.
Import ListNotations.
Open Scope R_scope.

(* ===================================================================== *)
(** ** Exceptions *)

Inductive error : Type :=
| IndexError
| ValueError
| FloatingPointError.

Inductive result (A : Type) : Type :=
| Ok (a : A)
| Raise (e : error).

Arguments Ok {A} a.
Arguments Raise {A} e.

Definition bind {A B : Type} (c : result A) (k : A -> result B) : result B :=
  match c with
  | Ok a => k a
  | Raise e => Raise e
  end.

Declare Scope py_scope.
Delimit Scope py_scope with py.
Notation "x <- c ;; k" := (bind c (fun x => k))
  (at level 61, c at next level, right associativity) : py_scope.
Notation "' p <- c ;; k" := (bind c (fun x => let 'p := x in k))
  (at level 61, p pattern, c at next level, right associativity) : py_scope.
Open Scope py_scope.

(** [[f(x) for x in l]] where [f] may raise: the first exception wins. *)
Fixpoint mapM {A B : Type} (f : A -> result B) (l : list A) : result (list B) :=
  match l with
  | [] => Ok []
  | x :: l' => y <- f x ;; ys <- mapM f l' ;; Ok (y :: ys)
  end.

(* ===================================================================== *)
(** ** Arrays *)

Abbreviation vector := (list R) (only parsing).

Record matrix : Type := Matrix { ncols : nat; rows : list vector }.

Definition nrows (M : matrix) : nat := length (rows M).

(** The representation invariant of a two-dimensional array: every row has
    [ncols] entries. *)
Definition wf_matrix (M : matrix) : Prop :=
  Forall (fun r => length r = ncols M) (rows M).

Definition vget (x : vector) (i : nat) : R := nth i x 0.
Definition mget (M : matrix) (i j : nat) : R := vget (nth i (rows M) []) j.

(** The array of shape [n x c] whose entry [(i, j)] is [g i j]. *)
Definition vtab (n : nat) (g : nat -> R) : vector := map g (seq 0 n).
Definition mtab (n c : nat) (g : nat -> nat -> R) : matrix :=
  Matrix c (map (fun i => vtab c (g i)) (seq 0 n)).

Definition vmap (f : R -> R) (x : vector) : vector := map f x.
Definition mmap (f : R -> R) (M : matrix) : matrix :=
  Matrix (ncols M) (map (vmap f) (rows M)).

(** [np.sum(x)] and [np.sum(M, axis=1)]. *)
Definition vsum (x : vector) : R := fold_right Rplus 0 x.
Definition sum_axis1 (M : matrix) : vector := map vsum (rows M).

(** *** Broadcasting

    Two dimensions broadcast when they are equal or one of them is 1; a
    dimension of size 1 is read with stride 0. *)
Definition bdim (a b : nat) : result nat :=
  if Nat.eqb a b then Ok a
  else if Nat.eqb a 1 then Ok b
  else if Nat.eqb b 1 then Ok a
  else Raise ValueError.

Definition bidx (n i : nat) : nat := if Nat.eqb n 1 then O else i.

Definition vbroadcast (f : R -> R -> R) (x y : vector) : result vector :=
  n <- bdim (length x) (length y) ;;
  Ok (vtab n (fun i => f (vget x (bidx (length x) i)) (vget y (bidx (length y) i)))).

Definition mbroadcast (f : R -> R -> R) (A B : matrix) : result matrix :=
  n <- bdim (nrows A) (nrows B) ;;
  c <- bdim (ncols A) (ncols B) ;;
  Ok (mtab n c (fun i j =>
        f (mget A (bidx (nrows A) i) (bidx (ncols A) j))
          (mget B (bidx (nrows B) i) (bidx (ncols B) j)))).

(** A one-dimensional operand of a two-dimensional operation is a single
    row. *)
Definition as_row (b : vector) : matrix := Matrix (length b) [b].

(** *** [np.dot] *)

(** Entry [j] of [x . W]: the sum over [k] of [x[k] * W[k, j]]. *)
Definition row_dot (x : vector) (W : matrix) : vector :=
  vtab (ncols W) (fun j => vsum (vtab (length x) (fun k => vget x k * mget W k j))).

Definition vdot (x : vector) (W : matrix) : result vector :=
  if Nat.eqb (length x) (nrows W) then Ok (row_dot x W) else Raise ValueError.

Definition mdot (A W : matrix) : result matrix :=
  if Nat.eqb (ncols A) (nrows W)
  then Ok (Matrix (ncols W) (map (fun r => row_dot r W) (rows A)))
  else Raise ValueError.

(** *** [np.log] *)

Definition np_log (x : R) : result R :=
  if Rlt_dec 0 x then Ok (ln x) else Raise FloatingPointError.

Definition mlog (M : matrix) : result matrix :=
  rs <- mapM (mapM np_log) (rows M) ;; Ok (Matrix (ncols M) rs).

(* ===================================================================== *)
(** ** Activation functions *)

(** [def sigmoid(x): return 1.0 / (1.0 + np.exp(-x))] *)
Definition sigmoid (x : R) : R := 1.0 / (1.0 + exp (- x)).

(** [def relu(x): return np.maximum(0, x)] *)
Definition relu (x : R) : R := Rmax 0 x.

(* ===================================================================== *)
(** ** The Bernoulli log-likelihood *)

(** [[
    sig_logits = sigmoid(logits)
    return np.sum(np.log(targets * sig_logits
                         + (1 - targets) * (1 - sig_logits)), axis=1)
    ]] *)
Definition bernoulli_log_prob (targets logits : matrix) : result vector :=
  let sig_logits := mmap sigmoid logits in
  hit <- mbroadcast Rmult targets sig_logits ;;
  miss <- mbroadcast Rmult (mmap (fun t => 1 - t) targets)
                           (mmap (fun p => 1 - p) sig_logits) ;;
  prob <- mbroadcast Rplus hit miss ;;
  logp <- mlog prob ;;
  Ok (sum_axis1 logp).

(* ===================================================================== *)
(** ** The feed-forward network *)

(** [neural_net_predict] is written once and called on a batch (a
    two-dimensional array) and, by the interpolation code, on a single image
    (a one-dimensional array).  The three NumPy operations it uses are the
    interface of its input. *)
Class NdArray (A : Type) : Type := {
  np_dot : A -> matrix -> result A;      (* np.dot(inputs, W) *)
  add_bias : A -> vector -> result A;    (* outputs + b       *)
  np_relu : A -> A                       (* relu(outputs)     *)
}.

#[export] Instance NdArray_vector : NdArray vector := {
  np_dot := vdot;
  add_bias := vbroadcast Rplus;
  np_relu := vmap relu
}.

#[export] Instance NdArray_matrix : NdArray matrix := {
  np_dot := mdot;
  add_bias := fun A b => mbroadcast Rplus A (as_row b);
  np_relu := mmap relu
}.

Abbreviation layer := (matrix * list R)%type (only parsing).

(** [np.dot(inputs, W) + b] *)
Definition affine {A : Type} `{NdArray A} (inputs : A) (W : matrix) (b : vector)
  : result A :=
  outputs <- np_dot inputs W ;; add_bias outputs b.

(** The loop [for W, b in params[:-1]]. *)
Fixpoint hidden_layers {A : Type} `{NdArray A} (ps : list layer) (inputs : A)
  : result A :=
  match ps with
  | [] => Ok inputs
  | (W, b) :: ps' =>
      outputs <- affine inputs W b ;;
      hidden_layers ps' (np_relu outputs)
  end.

(** [params[-1]]: the last element, [IndexError] on the empty list. *)
Definition getitem_last {A : Type} (l : list A) : result A :=
  match rev l with
  | [] => Raise IndexError
  | x :: _ => Ok x
  end.

Definition neural_net_predict {A : Type} `{NdArray A} (params : list layer)
  (inputs : A) : result A :=
  inputs' <- hidden_layers (removelast params) inputs ;;
  ' (outW, outb) <- getitem_last params ;;
  affine inputs' outW outb.

(* ===================================================================== *)
(** ** The random generator *)

Record rng : Type := Rng {
  uniform_tape : nat -> R;   (* the draws [npr.uniform] will return *)
  normal_tape : nat -> R     (* the draws [npr.randn] will return   *)
}.

(** [npr.uniform(size=(n, c))]: [n * c] draws in row-major order. *)
Definition npr_uniform (n c : nat) (g : rng) : matrix * rng :=
  (mtab n c (fun i j => uniform_tape g (i * c + j)),
   Rng (fun k => uniform_tape g (n * c + k)) (normal_tape g)).

(** [npr.randn(n, c)] *)
Definition npr_randn (n c : nat) (g : rng) : matrix * rng :=
  (mtab n c (fun i j => normal_tape g (i * c + j)),
   Rng (uniform_tape g) (fun k => normal_tape g (n * c + k))).

(* ===================================================================== *)
(** ** The posterior sampler and the KL term *)

(** [M[:, :D]] and [M[:, D:]] *)
Definition cols_to (D : nat) (M : matrix) : matrix :=
  Matrix (Nat.min D (ncols M)) (map (firstn D) (rows M)).
Definition cols_from (D : nat) (M : matrix) : matrix :=
  Matrix (ncols M - D) (map (skipn D) (rows M)).

(** [[
    D = np.shape(encoder_output)[-1] // 2
    mean, log_std = encoder_output[:, :D], encoder_output[:, D:]
    z_i = mean + np.exp(log_std) * npr.randn( *mean.shape )
    ]] *)
Definition sample_latent_variables_from_posterior (encoder_output : matrix)
  (g : rng) : result (matrix * rng) :=
  let D := Nat.div (ncols encoder_output) 2 in
  let mean := cols_to D encoder_output in
  let log_std := cols_from D encoder_output in
  let '(noise, g') := npr_randn (nrows mean) (ncols mean) g in
  scaled <- mbroadcast Rmult (mmap exp log_std) noise ;;
  z_i <- mbroadcast Rplus mean scaled ;;
  Ok (z_i, g').

(** [[
    variance = np.exp(log_std * 2)
    return .5 * np.sum((variance + mean**2 - 1 - 2 * log_std), axis=1)
    ]] *)
Definition compute_KL (q_means_and_log_stds : matrix) : result vector :=
  let D := Nat.div (ncols q_means_and_log_stds) 2 in
  let mean := cols_to D q_means_and_log_stds in
  let log_std := cols_from D q_means_and_log_stds in
  let variance := mmap (fun l => exp (l * 2)) log_std in
  s1 <- mbroadcast Rplus variance (mmap (fun mu => mu ^ 2) mean) ;;
  let s2 := mmap (fun x => x - 1) s1 in
  s3 <- mbroadcast Rminus s2 (mmap (fun l => 2 * l) log_std) ;;
  Ok (vmap (fun s => 0.5 * s) (sum_axis1 s3)).

(* ===================================================================== *)
(** ** The lower bound *)

(** [np.mean] of a one-dimensional array; on the empty array NumPy divides
    zero by zero. *)
Definition np_mean (x : vector) : result R :=
  match x with
  | [] => Raise FloatingPointError
  | _ => Ok (vsum x / INR (length x))
  end.

Definition vae_lower_bound (gen_params rec_params : list layer) (data : matrix)
  (g : rng) : result (R * rng) :=
  encoder_output <- neural_net_predict rec_params data ;;
  ' (sampled_latent_variables, g') <-
      sample_latent_variables_from_posterior encoder_output g ;;
  decoder_output <- neural_net_predict gen_params sampled_latent_variables ;;
  log_prob <- bernoulli_log_prob data decoder_output ;;
  divergence <- compute_KL encoder_output ;;
  diff <- vbroadcast Rminus log_prob divergence ;;
  lower_bound_estimate <- np_mean diff ;;
  Ok (lower_bound_estimate, g').

(* ===================================================================== *)
(** ** Flattening the parameters *)

Abbreviation params := (list (matrix * list R) * list (matrix * list R))%type (only parsing).

(** Modelled from the spec: [flatten] is [autograd.misc.flatten], which the
    script imports and whose code is not part of the repository.  The spec
    describes its result as "a single one-dimensional numeric buffer
    representing the concatenation of all (generator + recognition)
    parameters, produced by a reversible flatten/unflatten transform".  The
    definitions of this section spell that out; [ravel] is the buffer of one
    weight matrix, its rows one after the other. *)
Definition ravel (W : matrix) : vector := concat (rows W).

(** Modelled from the spec: the inverse of [ravel], cutting a buffer of
    [n * c] numbers into [n] rows of [c] numbers. *)
Fixpoint chunk (n c : nat) (flat : vector) : list vector :=
  match n with
  | O => []
  | S n' => firstn c flat :: chunk n' c (skipn c flat)
  end.

(** Modelled from the spec: the concatenation of all parameters of one
    network, layer after layer, the weight matrix before the bias. *)
Definition flatten_layers (ps : list layer) : vector :=
  flat_map (fun '(W, b) => ravel W ++ b) ps.

(** Modelled from the spec: cut the first [n] numbers off a buffer; a buffer
    that is too short does not have the shape of the flattened value. *)
Definition split_at (n : nat) (flat : vector) : result (vector * vector) :=
  if Nat.leb n (length flat) then Ok (firstn n flat, skipn n flat)
  else Raise ValueError.

(** Modelled from the spec: rebuild the layers of one network from the front
    of a buffer, with the shapes of [template]; the rest of the buffer is
    returned with them. *)
Fixpoint unflatten_layers (template : list layer) (flat : vector)
  : result (list layer * vector) :=
  match template with
  | [] => Ok ([], flat)
  | (W, b) :: template' =>
      ' (w, rest) <- split_at (nrows W * ncols W) flat ;;
      ' (b', rest') <- split_at (length b) rest ;;
      ' (ps, rest'') <- unflatten_layers template' rest' ;;
      Ok ((Matrix (ncols W) (chunk (nrows W) (ncols W) w), b') :: ps, rest'')
  end.

(** Modelled from the spec: the unflatten transform for values of the
    nesting and shapes of [template]: the generator layers, then the
    recognition layers, and nothing left over. *)
Definition unflatten (template : params) (flat : vector) : result params :=
  ' (gen, rest) <- unflatten_layers (fst template) flat ;;
  ' (rec, rest') <- unflatten_layers (snd template) rest ;;
  match rest' with
  | [] => Ok (gen, rec)
  | _ :: _ => Raise ValueError
  end.

(** Modelled from the spec: [flatten(value)] of line 166, returning the flat
    buffer together with the unflatten function for [value]. *)
Definition flatten (value : params) : vector * (vector -> result params) :=
  (flatten_layers (fst value) ++ flatten_layers (snd value), unflatten value).

(* ===================================================================== *)
(** ** The training objective *)

(** [train_images[data_idx, :]] for an array of row indices. *)
Definition getitem_rows (M : matrix) (idx : list nat) : result matrix :=
  rs <- mapM (fun i => match nth_error (rows M) i with
                       | Some r => Ok r
                       | None => Raise IndexError
                       end) idx ;;
  Ok (Matrix (ncols M) rs).

(** [x > u] as a boolean. *)
Definition Rgtb (x u : R) : bool := if Rgt_dec x u then true else false.

(** [images[on] = value] for a boolean mask of the shape of [images]. *)
Definition setitem_mask (images : matrix) (on : list (list bool)) (value : R)
  : matrix :=
  Matrix (ncols images)
    (map (fun '(r, mask) =>
            map (fun '(x, b) => if b : bool then value else x) (combine r mask))
         (combine (rows images) on)).

(** [[
    on = train_images[ data_idx ,: ] > npr.uniform(size = train_images[ data_idx ,: ].shape)
    images = train_images[ data_idx, : ] * 0.0
    images[ on ] = 1.0
    ]] *)
Definition binarize (selected : matrix) (g : rng) : matrix * rng :=
  let '(draws, g') := npr_uniform (nrows selected) (ncols selected) g in
  let on := map (fun i => map (fun j => Rgtb (mget selected i j) (mget draws i j))
                              (seq 0 (ncols selected)))
                (seq 0 (nrows selected)) in
  let images := mmap (fun x => x * 0.0) selected in
  (setitem_mask images on 1.0, g').

(** [objective] reads the free variables [unflat_params], [train_images] and
    [batch] of the script. *)
Definition objective (unflat_params : vector -> result params)
  (train_images : matrix) (batch : list nat)
  (flattened_combined_params : vector) (g : rng) : result (R * rng) :=
  combined_params <- unflat_params flattened_combined_params ;;
  let data_idx := batch in
  let '(gen_params, rec_params) := combined_params in
  selected <- getitem_rows train_images data_idx ;;
  let '(images, g') := binarize selected g in
  vae_lower_bound gen_params rec_params images g'.

(* ===================================================================== *)
(** ** The Adam loop *)

Module Adam.

Definition alpha : R := 0.001.
Definition beta1 : R := 0.9.
Definition beta2 : R := 0.999.
Definition epsilon : R := 1e-8.

(** The variables the loop mutates. *)
Record state : Type := State {
  flattened_current_params : vector;
  m : vector;
  v : vector;
  t : nat
}.

(** [np.zeros_like(x)] *)
Definition zeros_like (x : vector) : vector := vmap (fun _ => 0) x.

(** [[
    m = np.zeros_like(flattened_current_params)
    v = np.zeros_like(flattened_current_params)
    t = 1
    ]] *)
Definition init (flattened_combined_params_init : vector) : state :=
  State flattened_combined_params_init
        (zeros_like flattened_combined_params_init)
        (zeros_like flattened_combined_params_init)
        1.

(** [x / d] for a scalar [d]; a zero divisor leaves the reals. *)
Definition div_scalar (x : vector) (d : R) : result vector :=
  if Req_dec_T d 0 then Raise FloatingPointError
  else Ok (vmap (fun a => a / d) x).

(** [np.sqrt(x)] *)
Definition np_sqrt (x : vector) : result vector :=
  mapM (fun a => if Rle_dec 0 a then Ok (sqrt a) else Raise FloatingPointError) x.

(** [x / y] elementwise. *)
Definition div_array (x y : vector) : result vector :=
  if existsb (fun b => if Req_dec_T b 0 then true else false) y
  then Raise FloatingPointError
  else vbroadcast Rdiv x y.

(** [x += y]: the broadcast sum must have the shape of [x]. *)
Definition iadd (x y : vector) : result vector :=
  s <- vbroadcast Rplus x y ;;
  if Nat.eqb (length s) (length x) then Ok s else Raise ValueError.

(** [[
    m = beta1 * m + (1 - beta1) * grad
    v = beta2 * v + (1 - beta2) * grad**2
    m_est = m / (1 - beta1**t)
    v_est = v / (1 - beta2**t)
    flattened_current_params += alpha * m_est / (np.sqrt(v_est) + epsilon)
    ...
    t += 1
    ]] *)
Definition update (grad : vector) (st : state) : result state :=
  m' <- vbroadcast Rplus (vmap (fun a => beta1 * a) (m st))
                         (vmap (fun a => (1 - beta1) * a) grad) ;;
  v' <- vbroadcast Rplus (vmap (fun a => beta2 * a) (v st))
                         (vmap (fun a => (1 - beta2) * a)
                               (vmap (fun a => a ^ 2) grad)) ;;
  m_est <- div_scalar m' (1 - beta1 ^ t st) ;;
  v_est <- div_scalar v' (1 - beta2 ^ t st) ;;
  root <- np_sqrt v_est ;;
  delta <- div_array (vmap (fun a => alpha * a) m_est)
                     (vmap (fun a => a + epsilon) root) ;;
  theta <- iadd (flattened_current_params st) delta ;;
  Ok (State theta m' v' (t st + 1)).

Section Training.

(** [objective_grad = grad(objective)] is built by autograd; its value at
    the current parameters, for the current batch and generator state, is
    a parameter of the loop. *)
Variable objective_grad : list nat -> vector -> rng -> result (vector * rng).
Variable unflat_params : vector -> result params.
Variable train_images : matrix.
Variable N : nat.
Variable batch_size : nat.

(** [int(np.ceil(N / batch_size))], for a positive [batch_size]. *)
Definition num_batches : nat := Nat.div (N + batch_size - 1) batch_size.

(** [np.arange(batch_size * n_batch, np.minimum(N, batch_size * (n_batch + 1)))] *)
Definition batch_of (n_batch : nat) : list nat :=
  let lo := (batch_size * n_batch)%nat in
  let hi := Nat.min N (batch_size * (n_batch + 1)) in
  seq lo (hi - lo).

(** One mini-batch: the body of the inner loop.  The running [elbo_est] is
    threaded next to the optimizer state. *)
Definition train_batch (n_batch : nat) (acc : state * R * rng)
  : result (state * R * rng) :=
  let '(st, elbo_est, g) := acc in
  let batch := batch_of n_batch in
  ' (grad, g1) <- objective_grad batch (flattened_current_params st) g ;;
  st' <- update grad st ;;
  ' (elbo, g2) <- objective unflat_params train_images batch
                            (flattened_current_params st') g1 ;;
  Ok (st', elbo_est + elbo, g2).

Fixpoint for_batches (batches : list nat) (acc : state * R * rng)
  : result (state * R * rng) :=
  match batches with
  | [] => Ok acc
  | n_batch :: rest => acc' <- train_batch n_batch acc ;; for_batches rest acc'
  end.

(** One epoch: [elbo_est = 0.0], then every mini-batch in order. *)
Definition train_epoch (st : state) (g : rng) : result (state * R * rng) :=
  for_batches (seq 0 num_batches) (st, 0.0, g).

Fixpoint train (num_epochs : nat) (st : state) (g : rng)
  : result (state * rng) :=
  match num_epochs with
  | O => Ok (st, g)
  | S k => ' (st', _, g') <- train_epoch st g ;; train k st' g'
  end.

End Training.

End Adam.

(* ===================================================================== *)
(** ** Interpolation in latent space *)

(** [y[-1] = stop] *)
Fixpoint set_last (y : vector) (stop : R) : vector :=
  match y with
  | [] => []
  | [_] => [stop]
  | a :: y' => a :: set_last y' stop
  end.

(** [np.linspace(start, stop, num)], as NumPy computes it: [num] multiples of
    the step [(stop - start) / (num - 1)] added to [start], the last entry
    then overwritten by [stop]. *)
Definition linspace (start stop : R) (num : nat) : vector :=
  let step := (stop - start) / INR (num - 1) in
  let y := vtab num (fun i => INR i * step + start) in
  if Nat.ltb 1 num then set_last y stop else y.

(** A Python list of one-dimensional arrays given to [np.dot]: the arrays
    become the rows of a two-dimensional array and must agree in length.
    (The list of the script has 25 elements; the empty list is not a
    two-dimensional array.) *)
Definition np_array (xs : list vector) : result matrix :=
  match xs with
  | [] => Raise ValueError
  | x :: _ =>
      if forallb (fun y => Nat.eqb (length y) (length x)) xs
      then Ok (Matrix (length x) xs)
      else Raise ValueError
  end.

(** [mean2 * s + (1 - s) * mean1] *)
Definition mix (mean1 mean2 : vector) (s : R) : result vector :=
  vbroadcast Rplus (vmap (fun a => a * s) mean2) (vmap (fun a => (1 - s) * a) mean1).

(** The body of the loop [for i in range(num_interpolations)], up to the call
    of [save_images]:
    [[
    encoder_output1 = neural_net_predict(rec_params, image1)
    encoder_output2 = neural_net_predict(rec_params, image2)
    D1 = np.shape(encoder_output1)[-1] // 2
    mean1 = encoder_output1[:D1]
    D2 = np.shape(encoder_output2)[-1] // 2
    mean2 = encoder_output2[:D2]
    interpolations = [mean2 * s + (1 - s) * mean1 for s in np.linspace(0.0, 1.0, 25)]
    interpolated_images = neural_net_predict(gen_params, interpolations)
    ]] *)
Definition interpolate (gen_params rec_params : list layer)
  (image1 image2 : vector) : result matrix :=
  encoder_output1 <- neural_net_predict rec_params image1 ;;
  encoder_output2 <- neural_net_predict rec_params image2 ;;
  let D1 := Nat.div (length encoder_output1) 2 in
  let mean1 := firstn D1 encoder_output1 in
  let D2 := Nat.div (length encoder_output2) 2 in
  let mean2 := firstn D2 encoder_output2 in
  interpolations <- mapM (mix mean1 mean2) (linspace 0.0 1.0 25) ;;
  batch <- np_array interpolations ;;
  neural_net_predict gen_params batch.

(** [test_images[i]] *)
Definition getitem_row (M : matrix) (i : nat) : result vector :=
  match nth_error (rows M) i with
  | Some r => Ok r
  | None => Raise IndexError
  end.

Definition num_interpolations : nat := 5.

(** The five image matrices handed to [save_images]. *)
Definition interpolation_loop (gen_params rec_params : list layer)
  (test_images : matrix) : result (list matrix) :=
  mapM (fun i =>
          image1 <- getitem_row test_images (i * 2) ;;
          image2 <- getitem_row test_images (i * 2 + 1) ;;
          interpolate gen_params rec_params image1 image2)
       (seq 0 num_interpolations).

(* ===================================================================== *)
(** ** Reference formulas *)

(** Two arrays of the same shape. *)
Definition same_shape (A B : matrix) : Prop :=
  nrows A = nrows B /\ ncols A = ncols B.

(** Every entry of [M] satisfies [P]. *)
Definition entries (P : R -> Prop) (M : matrix) : Prop :=
  forall i j, (i < nrows M)%nat -> (j < ncols M)%nat -> P (mget M i j).

(** The argument of the logarithm at entry [(i, j)]. *)
Definition log_argument (targets logits : matrix) (i j : nat) : R :=
  mget targets i j * sigmoid (mget logits i j)
  + (1 - mget targets i j) * (1 - sigmoid (mget logits i j)).

(** Row [i] of the cross-entropy form [target*log(p) + (1-target)*log(1-p)],
    summed over the feature axis. *)
Definition cross_entropy_row (targets logits : matrix) (i : nat) : R :=
  vsum (vtab (ncols targets) (fun j =>
    mget targets i j * ln (sigmoid (mget logits i j))
    + (1 - mget targets i j) * ln (1 - sigmoid (mget logits i j)))).

(** One term of the divergence: [variance + mean**2 - 1 - 2 * log_std] with
    [variance = exp(log_std * 2)]. *)
Definition kl_term (mean log_std : R) : R :=
  exp (log_std * 2) + mean ^ 2 - 1 - 2 * log_std.

(** The affine transform of one input row: entry [j] is the sum over [k] of
    [x[k] * W[k, j]], plus [b[j]]. *)
Definition affine_row (x : vector) (W : matrix) (b : vector) : vector :=
  vtab (ncols W) (fun j =>
    vsum (vtab (nrows W) (fun k => vget x k * mget W k j)) + vget b j).

(** Affine transform then ReLU, for every layer of [ps]. *)
Fixpoint hidden_rows (ps : list layer) (x : vector) : vector :=
  match ps with
  | [] => x
  | (W, b) :: ps' => hidden_rows ps' (vmap relu (affine_row x W b))
  end.

(** The network as a function of one input row, following the description
    "for every layer except the last, affine transform then ReLU; the final
    layer is affine only". *)
Fixpoint forward (ps : list layer) (x : vector) : vector :=
  match ps with
  | [] => x
  | (W, b) :: ps' =>
      match ps' with
      | [] => affine_row x W b
      | _ :: _ => forward ps' (vmap relu (affine_row x W b))
      end
  end.

(** ReLU as the numeric contract of the network gives it, "ReLU(x) =
    max(0, x) elementwise": the number itself where it is positive, 0
    elsewhere.  It is written without the [relu] of the script. *)
Definition ReLU (x : R) : R := if Rlt_dec 0 x then x else 0.

(** The network of the description, written without the functions of the
    script: "for every layer except the last, compute affine transform then
    ReLU; the final layer is affine only". *)
Fixpoint affine_relu_network (ps : list layer) (x : vector) : vector :=
  match ps with
  | [] => x
  | (W, b) :: ps' =>
      match ps' with
      | [] => affine_row x W b
      | _ :: _ => affine_relu_network ps' (map ReLU (affine_row x W b))
      end
  end.

(** The layer shapes chain from an input of width [din]: each weight matrix
    has as many rows as its input has columns, each bias as many entries as
    its weight matrix has columns. *)
Fixpoint conforms (din : nat) (ps : list layer) : Prop :=
  match ps with
  | [] => True
  | (W, b) :: ps' =>
      nrows W = din /\ length b = ncols W /\ conforms (ncols W) ps'
  end.

(** The width of the output of the last layer ([din] when there is none). *)
Fixpoint out_dim (din : nat) (ps : list layer) : nat :=
  match ps with
  | [] => din
  | (W, _) :: ps' => out_dim (ncols W) ps'
  end.

(** A parameter list whose weight matrices are well-formed arrays. *)
Definition wf_layers (ps : list layer) : Prop :=
  Forall (fun l : layer => wf_matrix (fst l)) ps.

(** A valid (generator, recognition) pair. *)
Definition wf_params (value : params) : Prop :=
  wf_layers (fst value) /\ wf_layers (snd value).

(** The Adam update of one coordinate, as the update rule is usually
    written: the new first moment, the new second moment and the new
    parameter. *)
Definition adam_m (m g : R) : R := Adam.beta1 * m + (1 - Adam.beta1) * g.
Definition adam_v (v g : R) : R := Adam.beta2 * v + (1 - Adam.beta2) * g ^ 2.
Definition adam_theta (theta m v g : R) (t : nat) : R :=
  let m_hat := adam_m m g / (1 - Adam.beta1 ^ t) in
  let v_hat := adam_v v g / (1 - Adam.beta2 ^ t) in
  theta + Adam.alpha * m_hat / (sqrt v_hat + Adam.epsilon).

(** What the loop maintains: moments of the length of the parameter vector,
    a step counter of at least 1 and non-negative second moments. *)
Definition adam_invariant (st : Adam.state) : Prop :=
  length (Adam.m st) = length (Adam.flattened_current_params st) /\
  length (Adam.v st) = length (Adam.flattened_current_params st) /\
  (1 <= Adam.t st)%nat /\
  (forall i, 0 <= vget (Adam.v st) i).

(* ===================================================================== *)
(** ** Small inputs *)

(** One image of one pixel with intensity one half, and the logit 1. *)
Definition half_target : matrix := Matrix 1 [[0.5]].
Definition unit_logit : matrix := Matrix 1 [[1.0]].

(** One binarized image of two pixels and its logits. *)
Definition binary_target : matrix := Matrix 2 [[1.0; 0.0]].
Definition two_logits : matrix := Matrix 2 [[1.0; -1.0]].

(** A posterior of two latent dimensions for two images: means, then
    log-standard-deviations. *)
Definition two_posteriors : matrix :=
  Matrix 4 [[0.0; 1.0; 0.0; -1.0]; [2.0; 0.5; 1.0; 0.0]].

(** A network from two inputs through two hidden units to one output, and a
    batch of two rows for it. *)
Definition tiny_net : list layer :=
  [ (Matrix 2 [[1.0; 0.0]; [0.0; 1.0]], [0.0; 0.0]);
    (Matrix 1 [[1.0]; [1.0]], [0.5]) ].
Definition tiny_batch : matrix := Matrix 2 [[1.0; 2.0]; [-1.0; 3.0]].

(** A recognition network from two pixels to one mean and one
    log-standard-deviation, a generator from one latent dimension back to two
    pixels, and two images. *)
Definition tiny_rec : list layer :=
  [ (Matrix 2 [[1.0; 0.0]; [0.0; 1.0]], [0.0; 0.0]) ].
Definition tiny_gen : list layer :=
  [ (Matrix 2 [[1.0; 2.0]], [0.0; 0.0]) ].
Definition image_a : vector := [1.0; 0.0].
Definition image_b : vector := [0.0; 1.0].

(** Two training images of two pixels, and a generator whose uniform draws
    are all one half. *)
Definition tiny_images : matrix := Matrix 2 [[0.25; 0.75]; [1.0; 0.0]].
Definition constant_rng : rng := Rng (fun _ => 0.5) (fun _ => 0.0).

(** Two parameters and a gradient for them. *)
Definition two_params : vector := [0.5; -0.25].
Definition two_grads : vector := [1.0; -2.0].

(* ===================================================================== *)
(** ** Initial parameters *)

(** [npr.randn(n)]: [n] draws as a one-dimensional array. *)
Definition npr_randn1 (n : nat) (g : rng) : vector * rng :=
  (vtab n (normal_tape g),
   Rng (uniform_tape g) (fun k => normal_tape g (n + k))).

(** The list comprehension of [init_net_params] over the pairs [(m, n)]:
    for each pair the weight matrix is drawn first, then the bias vector. *)
Fixpoint init_layers (scale : R) (sizes : list (nat * nat)) (g : rng)
  : list layer * rng :=
  match sizes with
  | [] => ([], g)
  | (m, n) :: sizes' =>
      let '(W, g1) := npr_randn m n g in
      let '(b, g2) := npr_randn1 n g1 in
      let '(ps, g3) := init_layers scale sizes' g2 in
      ((mmap (fun w => scale * w) W, vmap (fun w => scale * w) b) :: ps, g3)
  end.

(** [[
    return [(scale * npr.randn(m, n),   # weight matrix
             scale * npr.randn(n))      # bias vector
            for m, n in zip(layer_sizes[:-1], layer_sizes[1:])]
    ]] *)
Definition init_net_params (layer_sizes : list nat) (scale : R) (g : rng)
  : list layer * rng :=
  init_layers scale (combine (removelast layer_sizes) (tl layer_sizes)) g.

(** The default [scale = 1e-2]. *)
Definition default_scale : R := 1e-2.

Section LayerSizes.

Variables latent_dim data_dim n_units n_layers : nat.

(** [[ latent_dim ] + [ n_units for i in range(n_layers) ] + [ data_dim ]] *)
Definition gen_layer_sizes : list nat :=
  [latent_dim] ++ repeat n_units n_layers ++ [data_dim].

(** [[ data_dim ] + [ n_units for i in range(n_layers) ] + [ latent_dim * 2 ]] *)
Definition rec_layer_sizes : list nat :=
  [data_dim] ++ repeat n_units n_layers ++ [(latent_dim * 2)%nat].

End LayerSizes.

(** [[
    init_gen_params = init_net_params(gen_layer_sizes)
    init_rec_params = init_net_params(rec_layer_sizes)
    combined_params_init = (init_gen_params, init_rec_params)
    ]] *)
Definition combined_params_init (latent_dim data_dim n_units n_layers : nat)
  (g : rng) : params * rng :=
  let '(init_gen_params, g1) :=
    init_net_params (gen_layer_sizes latent_dim data_dim n_units n_layers)
                    default_scale g in
  let '(init_rec_params, g2) :=
    init_net_params (rec_layer_sizes latent_dim data_dim n_units n_layers)
                    default_scale g1 in
  ((init_gen_params, init_rec_params), g2).

(* ===================================================================== *)
(** ** Sampling and reconstruction after training *)

(** [[
    z = npr.randn(num_images, latent_dim)
    x = neural_net_predict(gen_params, z)
    images = sigmoid(x)
    ]] *)
Definition prior_images (gen_params : list layer) (num_images latent_dim : nat)
  (g : rng) : result (matrix * rng) :=
  let '(z, g') := npr_randn num_images latent_dim g in
  x <- neural_net_predict gen_params z ;;
  Ok (mmap sigmoid x, g').

(** [test_images[:k]]: the first [k] rows, all of them when there are fewer. *)
Definition rows_to (k : nat) (M : matrix) : matrix :=
  Matrix (ncols M) (firstn k (rows M)).

(** [np.append(A, B, axis=0)]: the rows of [B] after the rows of [A]; the two
    arrays must have the same number of columns. *)
Definition np_append_axis0 (A B : matrix) : result matrix :=
  if Nat.eqb (ncols A) (ncols B) then Ok (Matrix (ncols A) (rows A ++ rows B))
  else Raise ValueError.

(** [[
    images_to_reconstruct = test_images[:10]
    encoder_output = neural_net_predict(rec_params, images_to_reconstruct)
    z2 = sample_latent_variables_from_posterior(encoder_output)
    x2 = neural_net_predict(gen_params, z2)
    images_reconstructed = sigmoid(x2)
    images_to_save = np.append(images_to_reconstruct, images_reconstructed, axis=0)
    ]] *)
Definition reconstruction_images (gen_params rec_params : list layer)
  (test_images : matrix) (g : rng) : result (matrix * rng) :=
  let images_to_reconstruct := rows_to 10 test_images in
  encoder_output <- neural_net_predict rec_params images_to_reconstruct ;;
  ' (z2, g') <- sample_latent_variables_from_posterior encoder_output g ;;
  x2 <- neural_net_predict gen_params z2 ;;
  let images_reconstructed := mmap sigmoid x2 in
  images_to_save <- np_append_axis0 images_to_reconstruct images_reconstructed ;;
  Ok (images_to_save, g').

(* ===================================================================== *)
(** ** Further reference formulas *)

(** The generator [k] draws of each kind further on, as the draws leave
    it. *)
Definition after_normal (k : nat) (g : rng) : rng :=
  Rng (uniform_tape g) (fun i => normal_tape g (k + i)).
Definition after_uniform (k : nat) (g : rng) : rng :=
  Rng (fun i => uniform_tape g (k + i)) (normal_tape g).

(** The number of normal draws [init_net_params] takes for the pairs
    [(m, n)]: [m * n] for the weights and [n] for the bias of each. *)
Fixpoint draws_of (sizes : list (nat * nat)) : nat :=
  match sizes with
  | [] => O
  | (m, n) :: sizes' => (m * n + n + draws_of sizes')%nat
  end.

(** The consecutive pairs [zip(l[:-1], l[1:])] of a list of layer sizes. *)
Definition pairs_of (layer_sizes : list nat) : list (nat * nat) :=
  combine (removelast layer_sizes) (tl layer_sizes).

(** All the numbers of a parameter list in the order they are drawn: layer
    after layer, the weight matrix row by row, then the bias. *)
Definition numbers_of (ps : list layer) : list R :=
  flat_map (fun l : layer => concat (rows (fst l)) ++ snd l) ps.



(** The unflattened parameters fit training images of width [width] through
    [L] latent dimensions. *)
Definition fits (width L : nat) (value : params) : Prop :=
  snd value <> [] /\ fst value <> [] /\
  conforms width (snd value) /\ out_dim width (snd value) = (2 * L)%nat /\
  conforms L (fst value) /\ out_dim L (fst value) = width.

(** The uniform draws lie in the half-open interval [[0, 1)], as
    [npr.uniform] documents for its default bounds. *)
Definition uniform_in_unit (g : rng) : Prop :=
  forall k, 0 <= uniform_tape g k < 1.


(* ===================================================================== *)
(** ** Further small inputs *)

(** One binarized image of two pixels as a batch for [tiny_rec] and
    [tiny_gen], which go through one latent dimension. *)
Definition one_image : matrix := Matrix 2 [[1.0; 0.0]].


(** A gradient for [two_params] whose first entry is zero. *)
Definition resting_grads : vector := [0.0; 1.0].

(** An encoder output of odd width five. *)
Definition odd_posteriors : matrix := Matrix 5 [[0.0; 1.0; 0.0; -1.0; 2.0]].

(* ===================================================================== *)
(** ** The divergence in binary64 arithmetic

    [compute_KL] once more, over the binary64 numbers the script computes
    with ([float] is the kernel's IEEE 754 binary64 type, its operations
    round to nearest even).  The arrays, the slices and the broadcasting are
    those of the embedding over the reals, with [float] for [R]. *)

Module Float64.

Record matrix : Type := Matrix { ncols : nat; rows : list (list float) }.

Definition nrows (M : matrix) : nat := length (rows M).

Definition mget (M : matrix) (i j : nat) : float :=
  nth j (nth i (rows M) []) 0%float.

Definition mtab (n c : nat) (g : nat -> nat -> float) : matrix :=
  Matrix c (map (fun i => map (g i) (seq 0 c)) (seq 0 n)).

Definition mmap (f : float -> float) (M : matrix) : matrix :=
  Matrix (ncols M) (map (map f) (rows M)).

Definition mbroadcast (f : float -> float -> float) (A B : matrix)
  : result matrix :=
  n <- bdim (nrows A) (nrows B) ;;
  c <- bdim (ncols A) (ncols B) ;;
  Ok (mtab n c (fun i j =>
        f (mget A (bidx (nrows A) i) (bidx (ncols A) j))
          (mget B (bidx (nrows B) i) (bidx (ncols B) j)))).

(** [M[:, :D]] and [M[:, D:]] *)
Definition cols_to (D : nat) (M : matrix) : matrix :=
  Matrix (Nat.min D (ncols M)) (map (firstn D) (rows M)).
Definition cols_from (D : nat) (M : matrix) : matrix :=
  Matrix (ncols M - D) (map (skipn D) (rows M)).

(** [np.sum(M, axis=1)]: NumPy adds the entries of a row from left to right
    when the row has fewer than eight of them (longer rows are added in
    blocks, which this definition does not follow). *)
Definition sum_axis1 (M : matrix) : list float :=
  map (fun r => fold_left PrimFloat.add r 0%float) (rows M).

(** [np.exp] is NumPy's, which calls the C library: the exponential, rounded
    to binary64.  It is modelled by the exponential series
    [1 + x/1 * (1 + x/2 * (1 + x/3 * ...))] of 20 terms, after the argument
    has been halved until it is at most 1/2 in absolute value (the result is
    squared once per halving).  Above [log(DBL_MAX)] the result is [inf],
    below [log] of the smallest positive number it is 0.  On an argument
    [x] so small that [x^2] is far below the rounding unit, the model
    returns [1 + x] rounded to nearest, which is the binary64 number nearest
    to [e^x] unless [e^x] lies next to a rounding boundary; on large
    arguments it can differ from the C library in the last digits. *)
Fixpoint exp_series (n : nat) (k x : float) : float :=
  match n with
  | O => 1%float
  | S n' => (1 + x / k * exp_series n' (k + 1) x)%float
  end.

Fixpoint exp_halved (halvings : nat) (x : float) : float :=
  if (abs x <=? 0.5)%float then exp_series 20 1 x
  else match halvings with
       | O => exp_series 20 1 x
       | S h => let y := exp_halved h (x / 2)%float in (y * y)%float
       end.

Definition np_exp (x : float) : float :=
  if (0x1.62e42fefa39efp+9 <? x)%float then infinity
  else if (x <? -0x1.74910d52d3052p+9)%float then 0%float
  else exp_halved 11 x.

(** [[
    D = np.shape(q_means_and_log_stds)[-1] // 2
    mean, log_std = q_means_and_log_stds[:, :D], q_means_and_log_stds[:, D:]
    variance = np.exp(log_std * 2)
    return .5 * np.sum((variance + mean**2 - 1 - 2 * log_std), axis=1)
    ]]
    [mean**2] is NumPy's square, [mean * mean]. *)
Definition compute_KL (q_means_and_log_stds : matrix) : result (list float) :=
  let D := Nat.div (ncols q_means_and_log_stds) 2 in
  let mean := cols_to D q_means_and_log_stds in
  let log_std := cols_from D q_means_and_log_stds in
  let variance := mmap (fun l => np_exp (l * 2)%float) log_std in
  s1 <- mbroadcast PrimFloat.add variance
                   (mmap (fun mu => (mu * mu)%float) mean) ;;
  let s2 := mmap (fun x => (x - 1)%float) s1 in
  s3 <- mbroadcast PrimFloat.sub s2 (mmap (fun l => (2 * l)%float) log_std) ;;
  Ok (map (fun s => (0.5 * s)%float) (sum_axis1 s3)).

End Float64.


(* ===================================================================== *)
(** * Properties *)

(** ** Arrays by index *)

Lemma nth_map_seq {A : Type} (f : nat -> A) (n i : nat) (d : A) :
  (i < n)%nat -> nth i (map f (seq 0 n)) d = f i.
Proof.
  intros Hi.
  rewrite (nth_indep _ d (f O)) by now rewrite length_map, length_seq.
  rewrite map_nth, seq_nth; auto.
Qed.

Lemma nth_map_default {A B : Type} (f : A -> B) (l : list A) (i : nat)
  (d : A) (d' : B) :
  f d = d' -> nth i (map f l) d' = f (nth i l d).
Proof. intros <-. apply map_nth. Qed.

Lemma length_vtab (n : nat) (g : nat -> R) : length (vtab n g) = n.
Proof. unfold vtab. now rewrite length_map, length_seq. Qed.

Lemma vget_vtab (n : nat) (g : nat -> R) (i : nat) :
  (i < n)%nat -> vget (vtab n g) i = g i.
Proof.
  intros Hi. unfold vget, vtab. now apply nth_map_seq.
Qed.

Lemma vtab_ext (n : nat) (g h : nat -> R) :
  (forall i, (i < n)%nat -> g i = h i) -> vtab n g = vtab n h.
Proof.
  intros E. unfold vtab. apply map_ext_in. intros i Hi.
  apply in_seq in Hi. apply E. lia.
Qed.

Lemma vtab_vget (x : vector) : vtab (length x) (vget x) = x.
Proof.
  apply (nth_ext _ _ 0 0).
  - apply length_vtab.
  - intros i Hi. rewrite length_vtab in Hi. now apply vget_vtab.
Qed.

Lemma nrows_mtab (n c : nat) (g : nat -> nat -> R) : nrows (mtab n c g) = n.
Proof. unfold nrows, mtab. simpl. now rewrite length_map, length_seq. Qed.

Lemma ncols_mtab (n c : nat) (g : nat -> nat -> R) : ncols (mtab n c g) = c.
Proof. reflexivity. Qed.

Lemma row_mtab (n c : nat) (g : nat -> nat -> R) (i : nat) :
  (i < n)%nat -> nth i (rows (mtab n c g)) [] = vtab c (g i).
Proof.
  intros Hi. unfold mtab. simpl.
  now rewrite (nth_map_seq (fun i => vtab c (g i))).
Qed.

Lemma mget_mtab (n c : nat) (g : nat -> nat -> R) (i j : nat) :
  (i < n)%nat -> (j < c)%nat -> mget (mtab n c g) i j = g i j.
Proof.
  intros Hi Hj. unfold mget. rewrite row_mtab by assumption.
  now apply vget_vtab.
Qed.

Lemma wf_mtab (n c : nat) (g : nat -> nat -> R) : wf_matrix (mtab n c g).
Proof.
  unfold wf_matrix, mtab. simpl. apply Forall_forall. intros r Hr.
  apply in_map_iff in Hr. destruct Hr as [i [<- _]]. apply length_vtab.
Qed.

Lemma mtab_ext (n c : nat) (g h : nat -> nat -> R) :
  (forall i j, (i < n)%nat -> (j < c)%nat -> g i j = h i j) ->
  mtab n c g = mtab n c h.
Proof.
  intros E. unfold mtab. f_equal. apply map_ext_in. intros i Hi.
  apply in_seq in Hi. apply vtab_ext. intros j Hj. apply E; lia.
Qed.

Lemma wf_row (M : matrix) (i : nat) :
  wf_matrix M -> (i < nrows M)%nat -> length (nth i (rows M) []) = ncols M.
Proof.
  intros W Hi. unfold wf_matrix in W. rewrite Forall_forall in W.
  apply W. now apply nth_In.
Qed.

(** A well-formed array is the table of its entries. *)
Lemma mtab_mget (M : matrix) :
  wf_matrix M -> mtab (nrows M) (ncols M) (mget M) = M.
Proof.
  intros W. destruct M as [c rs]. unfold mtab. simpl. f_equal.
  apply (nth_ext _ _ [] []).
  - now rewrite length_map, length_seq.
  - intros i Hi. rewrite length_map, length_seq in Hi.
    rewrite (nth_map_seq (fun i => vtab c (mget (Matrix c rs) i))) by assumption.
    pose proof (wf_row (Matrix c rs) i W Hi) as L. simpl in L.
    transitivity (vtab (length (nth i rs [])) (vget (nth i rs []))).
    + rewrite L. apply vtab_ext. reflexivity.
    + apply vtab_vget.
Qed.

Lemma mmap_mtab (f : R -> R) (n c : nat) (g : nat -> nat -> R) :
  mmap f (mtab n c g) = mtab n c (fun i j => f (g i j)).
Proof.
  unfold mmap, mtab, vmap, vtab. simpl. f_equal.
  rewrite map_map. apply map_ext. intros i. now rewrite map_map.
Qed.

Lemma nrows_mmap (f : R -> R) (M : matrix) : nrows (mmap f M) = nrows M.
Proof. unfold nrows, mmap. simpl. apply length_map. Qed.

Lemma sum_axis1_mtab (n c : nat) (g : nat -> nat -> R) :
  sum_axis1 (mtab n c g) = vtab n (fun i => vsum (vtab c (g i))).
Proof. unfold sum_axis1, mtab, vtab. simpl. now rewrite map_map. Qed.

(** ** Broadcasting on equal shapes *)

Lemma bdim_same (n : nat) : bdim n n = Ok n.
Proof. unfold bdim. now rewrite Nat.eqb_refl. Qed.

Lemma bidx_lt (n i : nat) : (i < n)%nat -> bidx n i = i.
Proof.
  intros Hi. unfold bidx. destruct (Nat.eqb_spec n 1); lia.
Qed.

Lemma vbroadcast_same (f : R -> R -> R) (x y : vector) :
  length x = length y ->
  vbroadcast f x y = Ok (vtab (length x) (fun i => f (vget x i) (vget y i))).
Proof.
  intros E. unfold vbroadcast. rewrite <- E, bdim_same. simpl. f_equal.
  apply vtab_ext. intros i Hi. now rewrite bidx_lt.
Qed.

Lemma mbroadcast_same (f : R -> R -> R) (A B : matrix) :
  nrows A = nrows B -> ncols A = ncols B ->
  mbroadcast f A B =
  Ok (mtab (nrows A) (ncols A) (fun i j => f (mget A i j) (mget B i j))).
Proof.
  intros En Ec. unfold mbroadcast. rewrite <- En, <- Ec, !bdim_same. simpl.
  f_equal. apply mtab_ext. intros i j Hi Hj. now rewrite !bidx_lt.
Qed.

Lemma mbroadcast_mtab (f : R -> R -> R) (n c : nat) (g h : nat -> nat -> R) :
  mbroadcast f (mtab n c g) (mtab n c h) = Ok (mtab n c (fun i j => f (g i j) (h i j))).
Proof.
  rewrite mbroadcast_same by now rewrite ?nrows_mtab.
  rewrite nrows_mtab, ncols_mtab. f_equal. apply mtab_ext.
  intros i j Hi Hj. now rewrite !mget_mtab.
Qed.

(** ** Computations that return *)

Lemma bind_ok {A B : Type} (c : result A) (k : A -> result B) (y : B) :
  bind c k = Ok y -> exists a, c = Ok a /\ k a = Ok y.
Proof. destruct c as [a|e]; cbn; [eauto | discriminate]. Qed.

Ltac bind_inv H :=
  let a := fresh "a" in
  let E := fresh "E" in
  apply bind_ok in H; destruct H as (a & E & H).

Lemma mapM_ok {A B : Type} (f : A -> result B) (g : A -> B) (l : list A) :
  (forall x, In x l -> f x = Ok (g x)) -> mapM f l = Ok (map g l).
Proof.
  induction l as [|x l IH]; intros E; simpl.
  - reflexivity.
  - rewrite (E x) by now left. simpl.
    rewrite IH by (intros y Hy; apply E; now right). reflexivity.
Qed.

Lemma mlog_mtab (n c : nat) (g : nat -> nat -> R) :
  (forall i j, (i < n)%nat -> (j < c)%nat -> 0 < g i j) ->
  mlog (mtab n c g) = Ok (mtab n c (fun i j => ln (g i j))).
Proof.
  intros P. unfold mlog, mtab, vtab. cbn [rows ncols].
  rewrite (mapM_ok _ (map ln)).
  - cbn [bind]. do 2 f_equal. rewrite map_map. apply map_ext.
    intros i. now rewrite map_map.
  - intros r Hr. apply in_map_iff in Hr. destruct Hr as [i [<- Hi]].
    apply in_seq in Hi.
    rewrite (mapM_ok _ ln).
    + now rewrite map_map.
    + intros x Hx. apply in_map_iff in Hx. destruct Hx as [j [<- Hj]].
      apply in_seq in Hj. unfold np_log.
      destruct (Rlt_dec 0 (g i j)) as [_|N]; [reflexivity|].
      exfalso. apply N, P; lia.
Qed.

(** ** The sigmoid and the Bernoulli log-likelihood *)

Lemma sigmoid_pos (x : R) : 0 < sigmoid x.
Proof.
  unfold sigmoid. pose proof (exp_pos (- x)).
  apply Rdiv_lt_0_compat; lra.
Qed.

Lemma sigmoid_lt_1 (x : R) : sigmoid x < 1.
Proof.
  unfold sigmoid. pose proof (exp_pos (- x)) as E.
  apply (Rmult_lt_reg_r (1.0 + exp (- x))); [lra|].
  unfold Rdiv. rewrite Rmult_assoc, Rinv_l by lra. lra.
Qed.

Lemma log_argument_pos (targets logits : matrix) (i j : nat) :
  0 <= mget targets i j <= 1 -> 0 < log_argument targets logits i j.
Proof.
  intros [L U]. unfold log_argument.
  pose proof (sigmoid_pos (mget logits i j)).
  pose proof (sigmoid_lt_1 (mget logits i j)).
  nra.
Qed.

Lemma bernoulli_log_prob_mtab (n c : nat) (tg lg : nat -> nat -> R) :
  (forall i j, (i < n)%nat -> (j < c)%nat ->
     0 < tg i j * sigmoid (lg i j) + (1 - tg i j) * (1 - sigmoid (lg i j))) ->
  bernoulli_log_prob (mtab n c tg) (mtab n c lg) =
  Ok (vtab n (fun i => vsum (vtab c (fun j =>
        ln (tg i j * sigmoid (lg i j) + (1 - tg i j) * (1 - sigmoid (lg i j))))))).
Proof.
  intros P. unfold bernoulli_log_prob.
  rewrite !mmap_mtab, !mbroadcast_mtab. cbn [bind].
  rewrite mbroadcast_mtab. cbn [bind].
  rewrite mlog_mtab by exact P. cbn [bind].
  now rewrite sum_axis1_mtab.
Qed.

(** What the code computes on targets in [[0, 1]]: the logarithm of the
    mixture [t * p + (1 - t) * (1 - p)], summed along each row. *)
Lemma bernoulli_log_prob_value (targets logits : matrix) :
  wf_matrix targets -> wf_matrix logits -> same_shape targets logits ->
  entries (fun t => 0 <= t <= 1) targets ->
  bernoulli_log_prob targets logits =
  Ok (vtab (nrows targets) (fun i =>
        vsum (vtab (ncols targets) (fun j => ln (log_argument targets logits i j))))).
Proof.
  intros WT WL [En Ec] HT.
  rewrite <- (mtab_mget targets WT) at 1.
  rewrite <- (mtab_mget logits WL) at 1.
  rewrite <- En, <- Ec.
  apply bernoulli_log_prob_mtab.
  intros i j Hi Hj. apply log_argument_pos. now apply HT.
Qed.

Lemma mget_mmap (f : R -> R) (M : matrix) (i j : nat) :
  wf_matrix M -> (i < nrows M)%nat -> (j < ncols M)%nat ->
  mget (mmap f M) i j = f (mget M i j).
Proof.
  intros W Hi Hj. rewrite <- (mtab_mget M W) at 1.
  rewrite mmap_mtab. now apply mget_mtab.
Qed.

(** A broadcast index stays inside the operand it reads. *)
Lemma bidx_in_range (a b n i : nat) :
  bdim a b = Ok n -> (i < n)%nat -> (bidx a i < a)%nat /\ (bidx b i < b)%nat.
Proof.
  unfold bdim, bidx. intros H Hi.
  destruct (Nat.eqb_spec a b) as [->|Nab].
  - injection H as ->. destruct (Nat.eqb_spec n 1); lia.
  - destruct (Nat.eqb_spec a 1) as [->|Na].
    + injection H as ->. destruct (Nat.eqb_spec n 1); lia.
    + destruct (Nat.eqb_spec b 1) as [->|Nb]; [|discriminate].
      injection H as ->. lia.
Qed.

Lemma bdim_raises (a b : nat) (e : error) : bdim a b = Raise e -> e = ValueError.
Proof.
  unfold bdim. destruct (Nat.eqb a b); [discriminate|].
  destruct (Nat.eqb a 1); [discriminate|].
  destruct (Nat.eqb b 1); [discriminate|]. now intros [= <-].
Qed.

(** Whatever the two shapes, the only exception of [bernoulli_log_prob] on
    targets in [[0, 1]] is the [ValueError] of shapes that do not
    broadcast. *)
Lemma bernoulli_log_prob_raises (targets logits : matrix) (e : error) :
  wf_matrix targets -> wf_matrix logits ->
  entries (fun t => 0 <= t <= 1) targets ->
  bernoulli_log_prob targets logits = Raise e -> e = ValueError.
Proof.
  intros WT WL HT. unfold bernoulli_log_prob.
  unfold mbroadcast at 1. rewrite nrows_mmap. cbn [ncols mmap].
  destruct (bdim (nrows targets) (nrows logits)) as [n|e1] eqn:Bn;
    [|cbn [bind]; intros [= <-]; now apply bdim_raises in Bn].
  cbn [bind].
  destruct (bdim (ncols targets) (ncols logits)) as [c|e2] eqn:Bc;
    [|cbn [bind]; intros [= <-]; now apply bdim_raises in Bc].
  cbn [bind].
  unfold mbroadcast at 1. rewrite !nrows_mmap. cbn [ncols mmap].
  rewrite Bn, Bc. cbn [bind].
  rewrite mbroadcast_mtab. cbn [bind].
  rewrite mlog_mtab; [discriminate|].
  intros i j Hi Hj.
  destruct (bidx_in_range _ _ _ i Bn Hi) as [It Il].
  destruct (bidx_in_range _ _ _ j Bc Hj) as [Jt Jl].
  fold (mmap sigmoid logits). fold (mmap (fun t => 1 - t) targets).
  fold (mmap (fun p => 1 - p) (mmap sigmoid logits)).
  rewrite !mget_mmap;
    try assumption; try (rewrite ?nrows_mmap; assumption).
  - pose proof (HT _ _ It Jt) as [L U].
    pose proof (sigmoid_pos (mget logits (bidx (nrows logits) i)
                                         (bidx (ncols logits) j))).
    pose proof (sigmoid_lt_1 (mget logits (bidx (nrows logits) i)
                                          (bidx (ncols logits) j))).
    nra.
  - rewrite <- (mtab_mget logits WL), mmap_mtab. apply wf_mtab.
Qed.

(** C9.  Over the reals the sigmoid takes its values strictly between 0 and
    1.  Hence, for targets in {0, 1} and arbitrary logits of the same shape,
    every argument handed to the logarithm in [bernoulli_log_prob] is
    strictly positive and the function returns a value, although the code
    does not clamp the probabilities; and whatever the shapes of the two
    arrays, the logarithm never raises [FloatingPointError]. *)
Theorem sigmoid_open_unit_interval_log_defined :
  (forall x : R, 0 < sigmoid x < 1) /\
  (forall targets logits : matrix,
     wf_matrix targets -> wf_matrix logits -> same_shape targets logits ->
     entries (fun t => t = 0 \/ t = 1) targets ->
     (forall i j, (i < nrows targets)%nat -> (j < ncols targets)%nat ->
        0 < log_argument targets logits i j) /\
     exists out, bernoulli_log_prob targets logits = Ok out
                 /\ length out = nrows targets) /\
  (forall targets logits : matrix,
     wf_matrix targets -> wf_matrix logits ->
     entries (fun t => t = 0 \/ t = 1) targets ->
     bernoulli_log_prob targets logits <> Raise FloatingPointError).
Proof.
  assert (B : forall targets, entries (fun t => t = 0 \/ t = 1) targets ->
                              entries (fun t => 0 <= t <= 1) targets).
  { intros targets HT i j Hi Hj. destruct (HT i j Hi Hj) as [E|E]; rewrite E; lra. }
  split; [|split].
  - intros x. split; [apply sigmoid_pos | apply sigmoid_lt_1].
  - intros targets logits WT WL S HT. split.
    + intros i j Hi Hj. apply log_argument_pos. now apply (B targets HT).
    + eexists. split.
      * apply bernoulli_log_prob_value; auto.
      * apply length_vtab.
  - intros targets logits WT WL HT H.
    apply bernoulli_log_prob_raises in H; auto. discriminate.
Qed.

(** C1, amended.  For a target matrix with entries in {0, 1} and a logits
    matrix of the same shape, [bernoulli_log_prob] returns one number per
    row: the sum across the feature axis of
    [target*log(p) + (1-target)*log(1-p)] with [p = sigmoid(logit)]. *)
Theorem bernoulli_log_prob_binary_targets (targets logits : matrix) :
  wf_matrix targets -> wf_matrix logits -> same_shape targets logits ->
  entries (fun t => t = 0 \/ t = 1) targets ->
  bernoulli_log_prob targets logits =
  Ok (vtab (nrows targets) (cross_entropy_row targets logits)).
Proof.
  intros WT WL S HT.
  rewrite bernoulli_log_prob_value; try assumption.
  - f_equal. apply vtab_ext. intros i Hi. unfold cross_entropy_row. f_equal.
    apply vtab_ext. intros j Hj. unfold log_argument.
    destruct (HT i j Hi Hj) as [E|E]; rewrite E.
    + replace (0 * sigmoid (mget logits i j) + (1 - 0) * (1 - sigmoid (mget logits i j)))
        with (1 - sigmoid (mget logits i j)) by ring.
      ring.
    + replace (1 * sigmoid (mget logits i j) + (1 - 1) * (1 - sigmoid (mget logits i j)))
        with (sigmoid (mget logits i j)) by ring.
      ring.
  - intros i j Hi Hj. destruct (HT i j Hi Hj) as [E|E]; rewrite E; lra.
Qed.

Ltac small_index i :=
  repeat (destruct i as [|i]; [|try (exfalso; cbn in *; lia)]).

Lemma wf_half_target : wf_matrix half_target.
Proof. repeat constructor. Defined.

Lemma wf_unit_logit : wf_matrix unit_logit.
Proof. repeat constructor. Defined.

Lemma wf_binary_target : wf_matrix binary_target.
Proof. repeat constructor. Defined.

Lemma wf_two_logits : wf_matrix two_logits.
Proof. repeat constructor. Defined.

Lemma binary_target_entries : entries (fun t => t = 0 \/ t = 1) binary_target.
Proof.
  intros i j Hi Hj. cbn in Hi, Hj.
  destruct i as [|i]; [|exfalso; lia].
  destruct j as [|[|j]]; [right|left|exfalso; lia]; cbn; lra.
Defined.

Lemma sigmoid_denominator (x : R) : sigmoid x * (1 + exp (- x)) = 1.
Proof.
  unfold sigmoid. pose proof (exp_pos (- x)).
  replace 1.0 with 1 by lra. field. lra.
Qed.

Lemma sigmoid_not_half (x : R) : 0 < x -> sigmoid x <> 0.5.
Proof.
  intros Hx E.
  assert (L : exp (- x) < 1).
  { rewrite <- exp_0. apply exp_increasing. lra. }
  pose proof (sigmoid_denominator x) as Q.
  rewrite E in Q. lra.
Qed.

(** C1, as stated, fails.  On the single pixel of intensity 0.5 with logit 1
    the code returns [log(0.5*p + 0.5*(1-p)) = log(0.5)], not
    [0.5*log(p) + 0.5*log(1-p)]. *)
Lemma bernoulli_log_prob_fractional_target :
  wf_matrix half_target /\ wf_matrix unit_logit /\
  same_shape half_target unit_logit /\
  entries (fun t => 0 <= t <= 1) half_target /\
  bernoulli_log_prob half_target unit_logit <>
  Ok (vtab (nrows half_target) (cross_entropy_row half_target unit_logit)).
Proof.
  assert (HE : entries (fun t => 0 <= t <= 1) half_target).
  { intros i j Hi Hj. cbn in Hi, Hj.
    destruct i as [|i]; [|exfalso; lia]. destruct j as [|j]; [|exfalso; lia].
    cbn. lra. }
  split; [apply wf_half_target|]. split; [apply wf_unit_logit|].
  split; [split; reflexivity|]. split; [exact HE|].
  rewrite bernoulli_log_prob_value;
    [|apply wf_half_target|apply wf_unit_logit|split; reflexivity|exact HE].
  intros E. injection E as E. revert E.
  unfold cross_entropy_row, log_argument. cbn.
  pose proof (sigmoid_pos 1.0) as P. pose proof (sigmoid_lt_1 1.0) as U.
  assert (NH : sigmoid 1.0 <> 0.5) by (apply sigmoid_not_half; lra).
  set (p := sigmoid 1.0) in *.
  replace (0.5 * p + (1 - 0.5) * (1 - p)) with 0.5 by lra.
  intros E.
  assert (E2 : ln (0.5 * 0.5) = ln (p * (1 - p))).
  { rewrite !ln_mult by lra. lra. }
  apply ln_inv in E2; [|lra|nra].
  apply NH. nra.
Qed.

Lemma bernoulli_log_prob_binary_targets_witness :
  bernoulli_log_prob binary_target two_logits =
  Ok (vtab (nrows binary_target) (cross_entropy_row binary_target two_logits)).
Proof.
  apply (bernoulli_log_prob_binary_targets binary_target two_logits).
  - exact wf_binary_target.
  - exact wf_two_logits.
  - split; reflexivity.
  - exact binary_target_entries.
Defined.

Lemma sigmoid_open_unit_interval_log_defined_witness :
  exists out, bernoulli_log_prob binary_target two_logits = Ok out
              /\ length out = nrows binary_target.
Proof.
  apply (proj1 (proj2 sigmoid_open_unit_interval_log_defined)
           binary_target two_logits).
  - exact wf_binary_target.
  - exact wf_two_logits.
  - split; reflexivity.
  - exact binary_target_entries.
Defined.

(** ** Slices *)

Lemma wf_cols_to (D : nat) (M : matrix) : wf_matrix M -> wf_matrix (cols_to D M).
Proof.
  unfold wf_matrix, cols_to. simpl. intros W.
  apply Forall_forall. intros r Hr. apply in_map_iff in Hr.
  destruct Hr as [r' [<- Hr']]. rewrite Forall_forall in W.
  now rewrite length_firstn, (W r' Hr').
Qed.

Lemma wf_cols_from (D : nat) (M : matrix) : wf_matrix M -> wf_matrix (cols_from D M).
Proof.
  unfold wf_matrix, cols_from. simpl. intros W.
  apply Forall_forall. intros r Hr. apply in_map_iff in Hr.
  destruct Hr as [r' [<- Hr']]. rewrite Forall_forall in W.
  now rewrite length_skipn, (W r' Hr').
Qed.

Lemma mget_cols_to (D : nat) (M : matrix) (i j : nat) :
  (j < D)%nat -> mget (cols_to D M) i j = mget M i j.
Proof.
  intros Hj. unfold mget, vget, cols_to. cbn [rows].
  rewrite (nth_map_default (firstn D) (rows M) i [] []) by apply firstn_nil.
  rewrite nth_firstn. destruct (Nat.ltb_spec j D); [reflexivity | lia].
Qed.

Lemma mget_cols_from (D : nat) (M : matrix) (i j : nat) :
  mget (cols_from D M) i j = mget M i (D + j).
Proof.
  unfold mget, vget, cols_from. cbn [rows].
  rewrite (nth_map_default (skipn D) (rows M) i [] []) by apply skipn_nil.
  apply nth_skipn.
Qed.

(** [M[:, :D]] and [M[:, D:]] of a well-formed array, entry by entry. *)
Lemma cols_to_mtab (D : nat) (M : matrix) :
  wf_matrix M -> (D <= ncols M)%nat ->
  cols_to D M = mtab (nrows M) D (mget M).
Proof.
  intros W HD. rewrite <- (mtab_mget (cols_to D M)) by now apply wf_cols_to.
  unfold nrows at 1. unfold cols_to at 1 2. cbn [rows ncols].
  rewrite length_map, Nat.min_l by assumption.
  apply mtab_ext. intros i j Hi Hj. now apply mget_cols_to.
Qed.

Lemma cols_from_mtab (D : nat) (M : matrix) :
  wf_matrix M ->
  cols_from D M = mtab (nrows M) (ncols M - D) (fun i j => mget M i (D + j)).
Proof.
  intros W. rewrite <- (mtab_mget (cols_from D M)) by now apply wf_cols_from.
  unfold nrows at 1. unfold cols_from at 1 2. cbn [rows ncols].
  rewrite length_map.
  apply mtab_ext. intros i j Hi Hj. apply mget_cols_from.
Qed.

(** ** The KL term *)

Lemma kl_term_nonneg (mean log_std : R) : 0 <= kl_term mean log_std.
Proof.
  unfold kl_term.
  pose proof (exp_ineq1_le (log_std * 2)).
  pose proof (pow2_ge_0 mean).
  lra.
Qed.

Lemma vsum_vtab_nonneg (n : nat) (g : nat -> R) :
  (forall i, (i < n)%nat -> 0 <= g i) -> 0 <= vsum (vtab n g).
Proof.
  intros P. unfold vtab.
  assert (G : forall l, (forall i, In i l -> 0 <= g i) -> 0 <= vsum (map g l)).
  { induction l as [|a l IH]; intros Q; simpl.
    - lra.
    - pose proof (Q a (or_introl eq_refl)).
      assert (0 <= vsum (map g l)) by (apply IH; intros; apply Q; now right).
      lra. }
  apply G. intros i Hi. apply in_seq in Hi. apply P. lia.
Qed.

(** The value of [compute_KL] on an array of even width [2 * L]. *)
Lemma compute_KL_value (M : matrix) (L : nat) :
  wf_matrix M -> ncols M = (2 * L)%nat ->
  compute_KL M =
  Ok (vtab (nrows M) (fun i =>
        0.5 * vsum (vtab L (fun j => kl_term (mget M i j) (mget M i (L + j)))))).
Proof.
  intros W E. unfold compute_KL.
  replace (Nat.div (ncols M) 2) with L
    by (rewrite E, Nat.mul_comm; symmetry; apply Nat.div_mul; lia).
  rewrite cols_to_mtab, cols_from_mtab by (try assumption; lia).
  replace (ncols M - L)%nat with L by lia.
  rewrite !mmap_mtab, mbroadcast_mtab. cbn [bind].
  rewrite mmap_mtab, mbroadcast_mtab. cbn [bind].
  rewrite sum_axis1_mtab. unfold vmap, vtab at 1. rewrite map_map.
  reflexivity.
Qed.


Lemma wf_two_posteriors : wf_matrix two_posteriors.
Proof. repeat constructor. Defined.



(** ** The network, layer by layer *)

Lemma wf_map_rows {A : Type} (c : nat) (f : A -> vector) (rs : list A) :
  (forall r, In r rs -> length (f r) = c) -> wf_matrix (Matrix c (map f rs)).
Proof.
  intros L. unfold wf_matrix. cbn [rows ncols]. apply Forall_forall.
  intros r Hr. apply in_map_iff in Hr. destruct Hr as [r' [<- Hr']]. now apply L.
Qed.

Lemma mget_map_rows (c : nat) (f : vector -> vector) (rs : list vector) (i j : nat) :
  (i < length rs)%nat ->
  mget (Matrix c (map f rs)) i j = vget (f (nth i rs [])) j.
Proof.
  intros Hi. unfold mget. cbn [rows]. f_equal.
  rewrite (nth_indep _ [] (f [])) by now rewrite length_map.
  apply map_nth.
Qed.

Lemma length_affine_row (x : vector) (W : matrix) (b : vector) :
  length (affine_row x W b) = ncols W.
Proof. apply length_vtab. Qed.

Lemma vget_row_dot (x : vector) (W : matrix) (j : nat) :
  (j < ncols W)%nat ->
  vget (row_dot x W) j = vsum (vtab (length x) (fun k => vget x k * mget W k j)).
Proof. intros Hj. unfold row_dot. now rewrite vget_vtab. Qed.

(** [np.dot(x, W) + b] on one row. *)
Lemma affine_vector (x : vector) (W : matrix) (b : vector) :
  length x = nrows W -> length b = ncols W ->
  affine x W b = Ok (affine_row x W b).
Proof.
  intros Ex Eb. unfold affine. cbn [np_dot add_bias NdArray_vector]. unfold vdot.
  rewrite Ex, Nat.eqb_refl. cbn [bind].
  rewrite vbroadcast_same by (unfold row_dot; now rewrite length_vtab).
  unfold row_dot at 1. rewrite length_vtab. unfold affine_row. f_equal.
  apply vtab_ext. intros j Hj. rewrite vget_row_dot by assumption. now rewrite Ex.
Qed.

(** [np.dot(X, W) + b] on a batch: the same, row by row. *)
Lemma affine_matrix (c : nat) (rs : list vector) (W : matrix) (b : vector) :
  wf_matrix (Matrix c rs) -> c = nrows W -> length b = ncols W ->
  affine (Matrix c rs) W b =
  Ok (Matrix (ncols W) (map (fun r => affine_row r W b) rs)).
Proof.
  intros WX Ec Eb. unfold affine. cbn [np_dot add_bias NdArray_matrix].
  unfold mdot. cbn [ncols rows]. rewrite Ec, Nat.eqb_refl. cbn [bind].
  unfold mbroadcast, nrows, as_row. cbn [ncols rows length].
  rewrite length_map, Eb, bdim_same.
  assert (Hn : bdim (length rs) 1 = Ok (length rs)).
  { unfold bdim. destruct (Nat.eqb_spec (length rs) 1) as [->|]; reflexivity. }
  rewrite Hn. cbn [bind]. f_equal.
  rewrite <- (mtab_mget (Matrix (ncols W) (map (fun r => affine_row r W b) rs)))
    by (apply wf_map_rows; intros; apply length_affine_row).
  unfold nrows. cbn [ncols rows]. rewrite length_map.
  apply mtab_ext. intros i j Hi Hj.
  rewrite (bidx_lt (length rs) i Hi), (bidx_lt (ncols W) j Hj).
  rewrite !mget_map_rows by assumption.
  unfold mget, bidx. cbn [rows nth Nat.eqb].
  unfold affine_row. rewrite vget_vtab, vget_row_dot by assumption.
  pose proof (wf_row (Matrix c rs) i WX Hi) as Lr. cbn [rows ncols] in Lr.
  now rewrite Lr, Ec.
Qed.

Lemma conforms_app (ps qs : list layer) (din : nat) :
  conforms din (ps ++ qs) <-> conforms din ps /\ conforms (out_dim din ps) qs.
Proof.
  revert din. induction ps as [|[W b] ps IH]; intros din; cbn.
  - tauto.
  - rewrite IH. tauto.
Qed.

Lemma out_dim_app (ps qs : list layer) (din : nat) :
  out_dim din (ps ++ qs) = out_dim (out_dim din ps) qs.
Proof.
  revert din. induction ps as [|[W b] ps IH]; intros din; cbn; auto.
Qed.

Lemma length_hidden_rows (ps : list layer) (x : vector) :
  conforms (length x) ps -> length (hidden_rows ps x) = out_dim (length x) ps.
Proof.
  revert x. induction ps as [|[W b] ps IH]; intros x C; cbn.
  - reflexivity.
  - destruct C as (_ & _ & C').
    assert (L : length (vmap relu (affine_row x W b)) = ncols W).
    { unfold vmap. now rewrite length_map, length_affine_row. }
    rewrite <- L in C'. now rewrite (IH _ C'), L.
Qed.

Lemma forward_snoc (ps : list layer) (W : matrix) (b : vector) (x : vector) :
  forward (ps ++ [(W, b)]) x = affine_row (hidden_rows ps x) W b.
Proof.
  revert x. induction ps as [|[W' b'] ps IH]; intros x.
  - reflexivity.
  - cbn [app forward hidden_rows]. rewrite <- IH.
    destruct (ps ++ [(W, b)]) eqn:E; [|reflexivity].
    now destruct ps.
Qed.

(** On one row the loop computes [hidden_rows]. *)
Lemma hidden_layers_vector (ps : list layer) (x : vector) :
  conforms (length x) ps -> hidden_layers ps x = Ok (hidden_rows ps x).
Proof.
  revert x. induction ps as [|[W b] ps IH]; intros x C.
  - reflexivity.
  - destruct C as (E1 & E2 & C'). cbn [hidden_layers hidden_rows].
    rewrite affine_vector by auto. cbn [bind np_relu NdArray_vector].
    apply IH. unfold vmap. now rewrite length_map, length_affine_row.
Qed.

(** On a batch it computes [hidden_rows] of every row. *)
Lemma hidden_layers_matrix (ps : list layer) (c : nat) (rs : list vector) :
  wf_matrix (Matrix c rs) -> conforms c ps ->
  hidden_layers ps (Matrix c rs) =
  Ok (Matrix (out_dim c ps) (map (hidden_rows ps) rs)).
Proof.
  revert c rs. induction ps as [|[W b] ps IH]; intros c rs WX C.
  - cbn. now rewrite map_id.
  - destruct C as (E1 & E2 & C'). cbn [hidden_layers hidden_rows out_dim].
    rewrite affine_matrix by auto. cbn [bind np_relu NdArray_matrix].
    unfold mmap. cbn [ncols rows]. rewrite map_map.
    rewrite IH; [now rewrite map_map | | exact C'].
    apply wf_map_rows. intros r _. unfold vmap.
    now rewrite length_map, length_affine_row.
Qed.

(** [params[:-1]] and [params[-1]] of a list that ends in [(W, b)]. *)
Lemma neural_net_predict_snoc {A : Type} `{NdArray A} (ps : list layer)
  (W : matrix) (b : vector) (inputs : A) :
  neural_net_predict (ps ++ [(W, b)]) inputs =
  (hidden <- hidden_layers ps inputs ;; affine hidden W b).
Proof.
  unfold neural_net_predict, getitem_last.
  rewrite removelast_last, rev_unit.
  destruct (hidden_layers ps inputs); reflexivity.
Qed.

Lemma neural_net_predict_vector (ps : list layer) (W : matrix) (b : vector)
  (x : vector) :
  conforms (length x) (ps ++ [(W, b)]) ->
  neural_net_predict (ps ++ [(W, b)]) x = Ok (forward (ps ++ [(W, b)]) x).
Proof.
  intros C. apply conforms_app in C. destruct C as [C (E1 & E2 & _)].
  rewrite neural_net_predict_snoc, hidden_layers_vector by assumption.
  cbn [bind]. rewrite forward_snoc. apply affine_vector; [|assumption].
  now rewrite length_hidden_rows.
Qed.

Lemma neural_net_predict_matrix (ps : list layer) (W : matrix) (b : vector)
  (c : nat) (rs : list vector) :
  wf_matrix (Matrix c rs) -> conforms c (ps ++ [(W, b)]) ->
  neural_net_predict (ps ++ [(W, b)]) (Matrix c rs) =
  Ok (Matrix (ncols W) (map (forward (ps ++ [(W, b)])) rs)).
Proof.
  intros WX C. apply conforms_app in C. destruct C as [C (E1 & E2 & _)].
  rewrite neural_net_predict_snoc, hidden_layers_matrix by assumption.
  cbn [bind]. rewrite affine_matrix; auto.
  - rewrite map_map. do 2 f_equal. apply map_ext. intros r.
    now rewrite forward_snoc.
  - apply wf_map_rows. intros r Hr. unfold wf_matrix in WX.
    rewrite Forall_forall in WX. cbn [rows ncols] in WX.
    rewrite <- (WX r Hr) in C |- *. now apply length_hidden_rows.
Qed.

(** The [relu] of the script is ReLU: [np.maximum(0, x)] is [x] where [x] is
    positive and 0 elsewhere. *)
Lemma relu_is_ReLU (x : R) : relu x = ReLU x.
Proof.
  unfold relu, ReLU. destruct (Rlt_dec 0 x) as [P|N].
  - apply Rmax_right. lra.
  - apply Rmax_left. lra.
Qed.

(** Hence the row function [forward], built from [relu], is the network of
    the description. *)
Lemma forward_is_affine_relu_network (ps : list layer) (x : vector) :
  forward ps x = affine_relu_network ps x.
Proof.
  revert x. induction ps as [|[W b] ps IH]; intros x; [reflexivity|].
  cbn [forward affine_relu_network]. destruct ps as [|l ps]; [reflexivity|].
  rewrite IH. f_equal. unfold vmap. apply map_ext. exact relu_is_ReLU.
Qed.

(** C6.  On a batch of N rows and a non-empty parameter list whose shapes
    chain from the width of the batch, [neural_net_predict] returns the
    array whose rows are [affine_relu_network params] of the input rows:
    for every layer except the last the affine transform [x . W + b]
    followed by ReLU, [max(0, x)] elementwise, and for the last layer the
    affine transform only.  The result has N rows and as many columns as
    the last weight matrix.  With exactly one [(W, b)] pair the result is
    [np.dot(inputs, W) + b], each row being [affine_row], with no
    nonlinearity.  The reference network is written with [ReLU], not with
    the [relu] of the script: a [relu] that is not [max(0, x)] would make
    the statement false. *)
Theorem neural_net_predict_affine_relu (params : list layer) (inputs : matrix) :
  params <> [] -> wf_matrix inputs -> conforms (ncols inputs) params ->
  (exists outputs,
     neural_net_predict params inputs = Ok outputs /\
     rows outputs = map (affine_relu_network params) (rows inputs) /\
     wf_matrix outputs /\
     nrows outputs = nrows inputs /\
     (forall ps W b, params = ps ++ [(W, b)] -> ncols outputs = ncols W)) /\
  (forall W b, params = [(W, b)] ->
     neural_net_predict params inputs = affine inputs W b /\
     neural_net_predict params inputs
     = Ok (Matrix (ncols W) (map (fun x => affine_row x W b) (rows inputs))) /\
     forall x, affine_relu_network params x = affine_row x W b) /\
  (forall W b W' b' x,
     affine_relu_network [(W, b); (W', b')] x
     = affine_row (map (fun a => if Rlt_dec 0 a then a else 0)
                       (affine_row x W b)) W' b') /\
  (forall x, forward params x = affine_relu_network params x) /\
  (forall a, (0 < a -> relu a = a) /\ (a <= 0 -> relu a = 0)).
Proof.
  intros NE WX C. split; [|split; [|split; [|split]]].
  - destruct (exists_last NE) as (ps & [W b] & ->).
    destruct inputs as [c rs]. cbn [ncols] in C.
    exists (Matrix (ncols W) (map (forward (ps ++ [(W, b)])) rs)).
    split; [now apply neural_net_predict_matrix|].
    split; [|split; [|split]].
    + cbn [rows]. apply map_ext. intros r.
      apply forward_is_affine_relu_network.
    + apply wf_map_rows. intros r Hr. rewrite forward_snoc.
      apply length_affine_row.
    + unfold nrows. cbn [rows]. apply length_map.
    + intros ps' W' b' E. apply app_inj_tail in E. destruct E as [_ E].
      now inversion E.
  - intros W b ->. split; [|split].
    + apply (neural_net_predict_snoc [] W b inputs).
    + destruct inputs as [c rs]. cbn [ncols rows] in *.
      exact (neural_net_predict_matrix [] W b c rs WX C).
    + reflexivity.
  - intros W b W' b' x. reflexivity.
  - intros x. apply forward_is_affine_relu_network.
  - intros a. rewrite relu_is_ReLU. unfold ReLU.
    destruct (Rlt_dec 0 a) as [P|N]; split; intros; lra.
Qed.

(** *** Which exceptions the network can raise *)

Lemma mbroadcast_raises (f : R -> R -> R) (A B : matrix) (e : error) :
  mbroadcast f A B = Raise e -> e = ValueError.
Proof.
  unfold mbroadcast.
  destruct (bdim (nrows A) (nrows B)) eqn:Bn;
    [|cbn [bind]; intros [= <-]; now apply bdim_raises in Bn].
  destruct (bdim (ncols A) (ncols B)) eqn:Bc;
    [discriminate|cbn [bind]; intros [= <-]; now apply bdim_raises in Bc].
Qed.

Lemma vbroadcast_raises (f : R -> R -> R) (x y : list R) (e : error) :
  vbroadcast f x y = Raise e -> e = ValueError.
Proof.
  unfold vbroadcast.
  destruct (bdim (length x) (length y)) eqn:Bn;
    [discriminate|cbn [bind]; intros [= <-]; now apply bdim_raises in Bn].
Qed.

Section Exceptions.

Context {A : Type} `{NdArray A}.

Hypothesis np_dot_raises : forall (x : A) W e, np_dot x W = Raise e -> e = ValueError.
Hypothesis add_bias_raises : forall (x : A) b e, add_bias x b = Raise e -> e = ValueError.

Lemma affine_raises (x : A) (W : matrix) (b : list R) (e : error) :
  affine x W b = Raise e -> e = ValueError.
Proof.
  unfold affine. destruct (np_dot x W) eqn:D; cbn [bind].
  - apply add_bias_raises.
  - intros [= <-]. now apply np_dot_raises in D.
Qed.

Lemma hidden_layers_raises (ps : list layer) (x : A) (e : error) :
  hidden_layers ps x = Raise e -> e = ValueError.
Proof.
  revert x. induction ps as [|[W b] ps IH]; intros x; cbn [hidden_layers].
  - discriminate.
  - destruct (affine x W b) eqn:F; cbn [bind].
    + apply IH.
    + intros [= <-]. now apply affine_raises in F.
Qed.

(** On a non-empty list nothing is out of range: the only exception left is
    the [ValueError] of shapes that do not fit. *)
Lemma neural_net_predict_raises (ps : list layer) (x : A) (e : error) :
  ps <> [] -> neural_net_predict ps x = Raise e -> e = ValueError.
Proof.
  intros NE. destruct (exists_last NE) as (ps' & [W b] & ->).
  rewrite neural_net_predict_snoc.
  destruct (hidden_layers ps' x) eqn:F; cbn [bind].
  - apply affine_raises.
  - intros [= <-]. now apply hidden_layers_raises in F.
Qed.

End Exceptions.

Lemma neural_net_predict_matrix_raises (ps : list layer) (X : matrix) (e : error) :
  ps <> [] -> neural_net_predict ps X = Raise e -> e = ValueError.
Proof.
  apply neural_net_predict_raises.
  - intros x W e'. cbn [np_dot NdArray_matrix]. unfold mdot.
    destruct (Nat.eqb (ncols x) (nrows W)); [discriminate | now intros [= <-]].
  - intros x b e'. cbn [add_bias NdArray_matrix]. apply mbroadcast_raises.
Qed.

Lemma neural_net_predict_vector_raises (ps : list layer) (x : list R) (e : error) :
  ps <> [] -> neural_net_predict ps x = Raise e -> e = ValueError.
Proof.
  apply neural_net_predict_raises.
  - intros y W e'. cbn [np_dot NdArray_vector]. unfold vdot.
    destruct (Nat.eqb (length y) (nrows W)); [discriminate | now intros [= <-]].
  - intros y b e'. cbn [add_bias NdArray_vector]. apply vbroadcast_raises.
Qed.

(** C10.  [neural_net_predict] needs a non-empty parameter list: on the
    empty list [params[-1]] is out of range and raises [IndexError],
    whatever the input; on a non-empty list no access is out of range (the
    only exception left is NumPy's [ValueError] for layer shapes that do not
    fit the input), and on every non-empty list whose layer shapes chain
    from the input the result is defined, for a batch as for a single row. *)
Theorem neural_net_predict_nonempty_precondition :
  (forall (A : Type) (H : NdArray A) (inputs : A),
     neural_net_predict [] inputs = Raise IndexError) /\
  (forall (params : list layer) (inputs : matrix),
     params <> [] -> neural_net_predict params inputs <> Raise IndexError) /\
  (forall (params : list layer) (x : list R),
     params <> [] -> neural_net_predict params x <> Raise IndexError) /\
  (forall (params : list layer) (inputs : matrix),
     params <> [] -> wf_matrix inputs -> conforms (ncols inputs) params ->
     exists outputs, neural_net_predict params inputs = Ok outputs) /\
  (forall (params : list layer) (x : list R),
     params <> [] -> conforms (length x) params ->
     exists outputs, neural_net_predict params x = Ok outputs).
Proof.
  split; [|split; [|split; [|split]]].
  - intros A H inputs. reflexivity.
  - intros params inputs NE E.
    apply neural_net_predict_matrix_raises in E; [discriminate | exact NE].
  - intros params x NE E.
    apply neural_net_predict_vector_raises in E; [discriminate | exact NE].
  - intros params [c rs] NE WX C.
    destruct (exists_last NE) as (ps & [W b] & ->).
    eexists. now apply neural_net_predict_matrix.
  - intros params x NE C.
    destruct (exists_last NE) as (ps & [W b] & ->).
    eexists. now apply neural_net_predict_vector.
Qed.

Lemma tiny_net_nonempty : tiny_net <> [].
Proof. discriminate. Defined.

Lemma wf_tiny_batch : wf_matrix tiny_batch.
Proof. repeat constructor. Defined.

Lemma tiny_net_conforms : conforms (ncols tiny_batch) tiny_net.
Proof. cbn. repeat split. Defined.

Lemma neural_net_predict_affine_relu_witness :
  exists outputs,
    neural_net_predict tiny_net tiny_batch = Ok outputs /\
    rows outputs = map (affine_relu_network tiny_net) (rows tiny_batch) /\
    wf_matrix outputs /\
    nrows outputs = nrows tiny_batch /\
    (forall ps W b, tiny_net = ps ++ [(W, b)] -> ncols outputs = ncols W).
Proof.
  exact (proj1 (neural_net_predict_affine_relu tiny_net tiny_batch
                  tiny_net_nonempty wf_tiny_batch tiny_net_conforms)).
Defined.

Lemma neural_net_predict_nonempty_precondition_witness :
  exists outputs, neural_net_predict tiny_net tiny_batch = Ok outputs.
Proof.
  exact (proj1 (proj2 (proj2 (proj2 neural_net_predict_nonempty_precondition)))
           tiny_net tiny_batch tiny_net_nonempty wf_tiny_batch tiny_net_conforms).
Defined.

(** ** Interpolation *)

Lemma length_set_last (y : vector) (stop : R) :
  length (set_last y stop) = length y.
Proof.
  induction y as [|a y IH]; [reflexivity|].
  destruct y as [|a' y]; [reflexivity|].
  change (S (length (set_last (a' :: y) stop)) = S (length (a' :: y))).
  now rewrite IH.
Qed.

Lemma vget_set_last (y : vector) (stop : R) (i : nat) :
  (i < length y)%nat ->
  vget (set_last y stop) i =
  if Nat.eqb i (length y - 1) then stop else vget y i.
Proof.
  unfold vget. revert i. induction y as [|a y IH]; intros i Hi.
  - cbn in Hi. lia.
  - destruct y as [|a' y].
    + cbn in Hi. assert (i = O) by lia. subst i. reflexivity.
    + change (set_last (a :: a' :: y) stop) with (a :: set_last (a' :: y) stop).
      destruct i as [|i].
      * reflexivity.
      * cbn [nth]. rewrite IH by (cbn in *; lia).
        cbn [length]. replace (S (S (length y)) - 1)%nat with (S (length y)) by lia.
        replace (S (length y) - 1)%nat with (length y) by lia.
        reflexivity.
Qed.

Lemma length_linspace (start stop : R) (num : nat) :
  length (linspace start stop num) = num.
Proof.
  unfold linspace. destruct (Nat.ltb 1 num).
  - now rewrite length_set_last, length_vtab.
  - apply length_vtab.
Qed.

(** The 25 coefficients are [k / 24] for [k = 0 .. 24]. *)
Lemma linspace_0_1_25 (k : nat) :
  (k < 25)%nat -> vget (linspace 0.0 1.0 25) k = INR k / 24.
Proof.
  intros Hk. unfold linspace.
  change (Nat.ltb 1 25) with true. cbv iota.
  rewrite vget_set_last by now rewrite length_vtab.
  rewrite length_vtab, vget_vtab by assumption.
  change (25 - 1)%nat with 24%nat.
  destruct (Nat.eqb_spec k 24) as [->|N].
  - rewrite INR_IZR_INZ. cbn. lra.
  - rewrite (INR_IZR_INZ 24). cbn. lra.
Qed.

Lemma mix_value (mean1 mean2 : vector) (s : R) :
  length mean1 = length mean2 ->
  mix mean1 mean2 s =
  Ok (vtab (length mean1) (fun i => vget mean2 i * s + (1 - s) * vget mean1 i)).
Proof.
  intros E. unfold mix.
  rewrite vbroadcast_same by (unfold vmap; now rewrite !length_map).
  unfold vmap at 1. rewrite length_map, <- E. f_equal.
  apply vtab_ext. intros i Hi. unfold vget, vmap.
  rewrite (nth_map_default (fun a => a * s) mean2 i 0 0) by ring.
  rewrite (nth_map_default (fun a => (1 - s) * a) mean1 i 0 0) by ring.
  reflexivity.
Qed.

Lemma np_array_ok (c : nat) (xs : list vector) :
  xs <> [] -> (forall x, In x xs -> length x = c) ->
  np_array xs = Ok (Matrix c xs).
Proof.
  intros NE L. destruct xs as [|x xs]; [contradiction|].
  unfold np_array.
  assert (F : forallb (fun y => Nat.eqb (length y) (length x)) (x :: xs) = true).
  { apply forallb_forall. intros y Hy. apply Nat.eqb_eq.
    rewrite (L y Hy). symmetry. apply L. now left. }
  rewrite F. f_equal. f_equal. apply L. now left.
Qed.

(** The interpolation of one pair of images, row by row: the decode of the
    mixture of the two posterior means at each coefficient. *)
Lemma interpolate_value (gen_params rec_params : list layer)
  (image1 image2 : vector) (din : nat) :
  rec_params <> [] -> gen_params <> [] ->
  length image1 = din -> length image2 = din ->
  conforms din rec_params ->
  conforms (Nat.div (out_dim din rec_params) 2) gen_params ->
  let L := Nat.div (out_dim din rec_params) 2 in
  let mean1 := firstn L (forward rec_params image1) in
  let mean2 := firstn L (forward rec_params image2) in
  neural_net_predict rec_params image1 = Ok (forward rec_params image1) /\
  neural_net_predict rec_params image2 = Ok (forward rec_params image2) /\
  length (forward rec_params image1) = out_dim din rec_params /\
  length (forward rec_params image2) = out_dim din rec_params /\
  length mean1 = L /\ length mean2 = L /\
  interpolate gen_params rec_params image1 image2 =
  Ok (Matrix (out_dim L gen_params)
        (map (fun s => forward gen_params
                (vtab L (fun i => vget mean2 i * s + (1 - s) * vget mean1 i)))
             (linspace 0.0 1.0 25))).
Proof.
  intros NR NG E1 E2 CR CG.
  destruct (exists_last NR) as (rs & [RW rb] & ->).
  destruct (exists_last NG) as (gs & [GW gb] & ->).
  intros L mean1 mean2.
  assert (P1 : neural_net_predict (rs ++ [(RW, rb)]) image1
               = Ok (forward (rs ++ [(RW, rb)]) image1)).
  { apply neural_net_predict_vector. now rewrite E1. }
  assert (P2 : neural_net_predict (rs ++ [(RW, rb)]) image2
               = Ok (forward (rs ++ [(RW, rb)]) image2)).
  { apply neural_net_predict_vector. now rewrite E2. }
  assert (OD : out_dim din (rs ++ [(RW, rb)]) = ncols RW).
  { rewrite out_dim_app. reflexivity. }
  assert (L1 : length (forward (rs ++ [(RW, rb)]) image1)
               = out_dim din (rs ++ [(RW, rb)])).
  { rewrite OD, forward_snoc. apply length_affine_row. }
  assert (L2 : length (forward (rs ++ [(RW, rb)]) image2)
               = out_dim din (rs ++ [(RW, rb)])).
  { rewrite OD, forward_snoc. apply length_affine_row. }
  assert (M1 : length mean1 = L).
  { unfold mean1. rewrite length_firstn, L1. apply Nat.min_l.
    unfold L. apply Nat.Div0.div_le_upper_bound. lia. }
  assert (M2 : length mean2 = L).
  { unfold mean2. rewrite length_firstn, L2. apply Nat.min_l.
    unfold L. apply Nat.Div0.div_le_upper_bound. lia. }
  repeat (split; [assumption|]).
  unfold interpolate. rewrite P1, P2. cbn [bind]. rewrite L1, L2.
  fold L. fold mean1. fold mean2.
  rewrite (mapM_ok _ (fun s => vtab L (fun i => vget mean2 i * s + (1 - s) * vget mean1 i)))
    by (intros s _; rewrite mix_value by congruence; now rewrite M1).
  cbn [bind].
  rewrite (np_array_ok L).
  - cbn [bind]. rewrite neural_net_predict_matrix.
    + rewrite map_map, out_dim_app. reflexivity.
    + apply wf_map_rows. intros r _. apply length_vtab.
    + exact CG.
  - intros E. apply (f_equal (@length vector)) in E.
    rewrite length_map, length_linspace in E. discriminate.
  - intros x Hx. apply in_map_iff in Hx. destruct Hx as [s [<- _]].
    apply length_vtab.
Qed.

(** C5.  The interpolation of a pair of images uses the 25 coefficients
    [k / 24], [k = 0 .. 24], evenly spaced in [[0, 1]] with both endpoints;
    it mixes the posterior means (the first half of the encoder output, no
    random draw is involved) as [s * mean2 + (1 - s) * mean1] and decodes
    every mixture.  The decoded row at [s = 0] is exactly the decode of
    [mean1], the decoded row at [s = 1] exactly the decode of [mean2]. *)
Theorem interpolation_endpoints (gen_params rec_params : list layer)
  (image1 image2 : vector) (din : nat) :
  rec_params <> [] -> gen_params <> [] ->
  length image1 = din -> length image2 = din ->
  conforms din rec_params ->
  conforms (Nat.div (out_dim din rec_params) 2) gen_params ->
  let coefficients := linspace 0.0 1.0 25 in
  length coefficients = 25%nat /\
  (forall k, (k < 25)%nat -> vget coefficients k = INR k / 24) /\
  vget coefficients 0 = 0 /\ vget coefficients 24 = 1 /\
  exists encoder_output1 encoder_output2 images,
    neural_net_predict rec_params image1 = Ok encoder_output1 /\
    neural_net_predict rec_params image2 = Ok encoder_output2 /\
    let mean1 := firstn (Nat.div (length encoder_output1) 2) encoder_output1 in
    let mean2 := firstn (Nat.div (length encoder_output2) 2) encoder_output2 in
    interpolate gen_params rec_params image1 image2 = Ok images /\
    nrows images = 25%nat /\
    (forall k, (k < 25)%nat ->
       exists z,
         mix mean1 mean2 (vget coefficients k) = Ok z /\
         length z = length mean1 /\
         (forall i, (i < length mean1)%nat ->
            vget z i = vget coefficients k * vget mean2 i
                       + (1 - vget coefficients k) * vget mean1 i) /\
         neural_net_predict gen_params z = Ok (nth k (rows images) [])) /\
    neural_net_predict gen_params mean1 = Ok (nth 0 (rows images) []) /\
    neural_net_predict gen_params mean2 = Ok (nth 24 (rows images) []).
Proof.
  intros NR NG E1 E2 CR CG coefficients.
  pose proof (interpolate_value gen_params rec_params image1 image2 din
                NR NG E1 E2 CR CG) as V.
  cbv zeta in V.
  destruct V as (P1 & P2 & L1 & L2 & M1 & M2 & V).
  set (L := Nat.div (out_dim din rec_params) 2) in *.
  assert (S0 : vget coefficients 0 = 0).
  { unfold coefficients. rewrite linspace_0_1_25 by lia. cbn. lra. }
  assert (S24 : vget coefficients 24 = 1).
  { unfold coefficients. rewrite linspace_0_1_25 by lia.
    rewrite INR_IZR_INZ. cbn. lra. }
  split; [apply length_linspace|].
  split; [intros k Hk; now apply linspace_0_1_25|].
  split; [exact S0|]. split; [exact S24|].
  eexists. eexists. eexists.
  split; [exact P1|]. split; [exact P2|].
  cbv zeta. rewrite L1, L2. fold L.
  set (mean1 := firstn L (forward rec_params image1)) in *.
  set (mean2 := firstn L (forward rec_params image2)) in *.
  split; [exact V|].
  assert (G : forall z, length z = L ->
            neural_net_predict gen_params z = Ok (forward gen_params z)).
  { intros z Hz. destruct (exists_last NG) as (gs & [GW gb] & EG).
    rewrite EG. apply neural_net_predict_vector. rewrite Hz, <- EG. exact CG. }
  assert (ROW : forall k, (k < 25)%nat ->
            nth k (map (fun s => forward gen_params
                     (vtab L (fun i => vget mean2 i * s + (1 - s) * vget mean1 i)))
                     coefficients) [] =
            forward gen_params
              (vtab L (fun i => vget mean2 i * vget coefficients k
                                + (1 - vget coefficients k) * vget mean1 i))).
  { intros k Hk.
    set (F := fun s => forward gen_params
                (vtab L (fun i => vget mean2 i * s + (1 - s) * vget mean1 i))).
    rewrite (nth_indep _ [] (F 0))
      by (rewrite length_map; unfold coefficients; now rewrite length_linspace).
    rewrite map_nth. reflexivity. }
  cbn [rows]. split; [|split; [|split]].
  - unfold nrows. cbn [rows]. rewrite length_map. apply length_linspace.
  - intros k Hk. eexists. split; [|split; [|split]].
    + rewrite mix_value by congruence. rewrite M1. reflexivity.
    + rewrite length_vtab. now rewrite M1.
    + intros i Hi. rewrite M1 in Hi. rewrite vget_vtab by assumption. ring.
    + rewrite ROW by assumption. apply G, length_vtab.
  - rewrite ROW by lia. rewrite S0, (G mean1 M1). do 2 f_equal.
    transitivity (vtab (length mean1) (vget mean1));
      [symmetry; apply vtab_vget|].
    rewrite M1. apply vtab_ext. intros i _. ring.
  - rewrite ROW by lia. rewrite S24, (G mean2 M2). do 2 f_equal.
    transitivity (vtab (length mean2) (vget mean2));
      [symmetry; apply vtab_vget|].
    rewrite M2. apply vtab_ext. intros i _. ring.
Qed.

Lemma tiny_rec_nonempty : tiny_rec <> [].
Proof. discriminate. Defined.

Lemma tiny_gen_nonempty : tiny_gen <> [].
Proof. discriminate. Defined.

Lemma tiny_rec_conforms : conforms 2 tiny_rec.
Proof. cbn. repeat split. Defined.

Lemma tiny_gen_conforms : conforms (Nat.div (out_dim 2 tiny_rec) 2) tiny_gen.
Proof. cbn. repeat split. Defined.

Lemma interpolation_endpoints_witness :
  vget (linspace 0.0 1.0 25) 0 = 0 /\ vget (linspace 0.0 1.0 25) 24 = 1 /\
  exists images, interpolate tiny_gen tiny_rec image_a image_b = Ok images
                 /\ nrows images = 25%nat.
Proof.
  destruct (interpolation_endpoints tiny_gen tiny_rec image_a image_b 2
              tiny_rec_nonempty tiny_gen_nonempty eq_refl eq_refl
              tiny_rec_conforms tiny_gen_conforms)
    as (_ & _ & S0 & S24 & e1 & e2 & images & _ & _ & I & N & _).
  split; [exact S0|]. split; [exact S24|].
  exists images. split; [exact I | exact N].
Defined.

(** ** Flatten and unflatten *)

Lemma firstn_exact (a rest : vector) (c : nat) :
  length a = c -> firstn c (a ++ rest) = a.
Proof.
  intros <-. now rewrite firstn_app, Nat.sub_diag, firstn_all, firstn_O, app_nil_r.
Qed.

Lemma skipn_exact (a rest : vector) (c : nat) :
  length a = c -> skipn c (a ++ rest) = rest.
Proof.
  intros <-. now rewrite skipn_app, Nat.sub_diag, skipn_all.
Qed.

Lemma split_at_app (a rest : vector) :
  split_at (length a) (a ++ rest) = Ok (a, rest).
Proof.
  unfold split_at. rewrite length_app.
  destruct (Nat.leb_spec (length a) (length a + length rest)); [|lia].
  now rewrite firstn_exact, skipn_exact.
Qed.

Lemma length_ravel (W : matrix) :
  wf_matrix W -> length (ravel W) = (nrows W * ncols W)%nat.
Proof.
  destruct W as [c rs]. unfold wf_matrix, ravel, nrows. cbn [rows ncols].
  induction rs as [|r rs IH]; intros F; [reflexivity|].
  apply Forall_cons_iff in F. destruct F as [Hr F']. cbn [ncols] in Hr.
  cbn [concat length]. rewrite length_app, Hr, (IH F'). lia.
Qed.

(** Reshaping the ravelled rows gives the rows back. *)
Lemma chunk_ravel (W : matrix) :
  wf_matrix W -> chunk (nrows W) (ncols W) (ravel W) = rows W.
Proof.
  destruct W as [c rs]. unfold wf_matrix, ravel, nrows. cbn [rows ncols].
  induction rs as [|r rs IH]; intros F; [reflexivity|].
  apply Forall_cons_iff in F. destruct F as [Hr F']. cbn [ncols] in Hr.
  cbn [concat length chunk].
  rewrite (firstn_exact r), (skipn_exact r) by exact Hr.
  now rewrite (IH F').
Qed.

Lemma unflatten_layers_flatten (ps : list layer) (rest : vector) :
  wf_layers ps ->
  unflatten_layers ps (flatten_layers ps ++ rest) = Ok (ps, rest).
Proof.
  induction ps as [|[W b] ps IH]; intros F; [reflexivity|].
  apply Forall_cons_iff in F. destruct F as [HW F']. cbn [fst] in HW.
  cbn [unflatten_layers flatten_layers flat_map].
  rewrite <- !app_assoc, <- (length_ravel W HW), split_at_app. cbn [bind].
  rewrite split_at_app. cbn [bind].
  fold (flatten_layers ps). rewrite (IH F'). cbn [bind].
  rewrite chunk_ravel by assumption.
  now destruct W.
Qed.

Lemma split_at_ok (n : nat) (flat a rest : list R) :
  split_at n flat = Ok (a, rest) -> a ++ rest = flat /\ length a = n.
Proof.
  unfold split_at. destruct (Nat.leb_spec n (length flat)); [|discriminate].
  intros [= <- <-]. split; [apply firstn_skipn|].
  rewrite length_firstn. lia.
Qed.

Lemma concat_chunk (n c : nat) (w : list R) :
  length w = (n * c)%nat -> concat (chunk n c w) = w.
Proof.
  revert w. induction n as [|n IH]; intros w Hw; cbn [chunk concat].
  - destruct w; [reflexivity | discriminate].
  - rewrite IH by (rewrite length_skipn; cbn in Hw; lia).
    apply firstn_skipn.
Qed.

(** The other direction: what [unflatten_layers] builds from a buffer
    flattens back to the part of the buffer it consumed. *)
Lemma flatten_unflatten_layers (template ps : list layer) (flat rest : list R) :
  unflatten_layers template flat = Ok (ps, rest) ->
  flatten_layers ps ++ rest = flat.
Proof.
  revert ps flat rest. induction template as [|[W b] template IH];
    intros ps flat rest H; cbn [unflatten_layers] in H.
  - now injection H as <- <-.
  - bind_inv H. destruct a as [w r1]. bind_inv H. destruct a as [b' r2].
    bind_inv H. destruct a as [ps' r3]. injection H as <- <-.
    apply split_at_ok in E. destruct E as [<- Lw].
    apply split_at_ok in E0. destruct E0 as [<- Lb].
    apply IH in E1. subst r2.
    cbn [flatten_layers flat_map]. fold (flatten_layers ps').
    unfold ravel. cbn [rows]. rewrite concat_chunk by exact Lw.
    now rewrite <- !app_assoc.
Qed.

(** C7.  For a valid (generator, recognition) pair, the unflatten function
    returned by [flatten], applied to the flat vector returned with it,
    gives the pair back: same nesting, same shapes, same values. *)
Theorem unflatten_flatten (value : params) :
  wf_params value ->
  let '(flat, unflat_params) := flatten value in
  unflat_params flat = Ok value.
Proof.
  intros [FG FR]. destruct value as [gen rec]. cbn [fst snd] in *.
  unfold flatten, unflatten. cbn [fst snd].
  rewrite unflatten_layers_flatten by assumption. cbn [bind].
  rewrite <- (app_nil_r (flatten_layers rec)).
  rewrite unflatten_layers_flatten by assumption. reflexivity.
Qed.

Lemma tiny_params_wf : wf_params (tiny_gen, tiny_rec).
Proof. split; repeat constructor. Defined.

Lemma unflatten_flatten_witness :
  snd (flatten (tiny_gen, tiny_rec)) (fst (flatten (tiny_gen, tiny_rec)))
  = Ok (tiny_gen, tiny_rec).
Proof.
  exact (unflatten_flatten (tiny_gen, tiny_rec) tiny_params_wf).
Defined.

(** ** Binarization *)

Lemma combine_map_same {A B C : Type} (f : A -> B) (h : A -> C) (l : list A) :
  combine (map f l) (map h l) = map (fun x => (f x, h x)) l.
Proof. induction l as [|x l IH]; cbn; [reflexivity | now rewrite IH]. Qed.

Lemma setitem_mask_mtab (n c : nat) (a : nat -> nat -> R)
  (mask : nat -> nat -> bool) (value : R) :
  setitem_mask (mtab n c a)
    (map (fun i => map (fun j => mask i j) (seq 0 c)) (seq 0 n)) value =
  mtab n c (fun i j => if mask i j then value else a i j).
Proof.
  unfold setitem_mask, mtab, vtab. cbn [rows ncols]. f_equal.
  rewrite combine_map_same, map_map. apply map_ext. intros i.
  now rewrite combine_map_same, map_map.
Qed.

Lemma binarize_mtab (n c : nat) (x : nat -> nat -> R) (g : rng) :
  binarize (mtab n c x) g =
  (mtab n c (fun i j =>
     if Rgtb (x i j) (uniform_tape g (i * c + j)) then 1.0 else x i j * 0.0),
   Rng (fun k => uniform_tape g (n * c + k)) (normal_tape g)).
Proof.
  unfold binarize, npr_uniform. rewrite nrows_mtab, ncols_mtab, mmap_mtab.
  f_equal.
  rewrite <- (setitem_mask_mtab n c (fun i j => x i j * 0.0)
               (fun i j => Rgtb (x i j) (uniform_tape g (i * c + j)))).
  f_equal. apply map_ext_in. intros i Hi. apply in_seq in Hi.
  apply map_ext_in. intros j Hj. apply in_seq in Hj.
  now rewrite !mget_mtab by lia.
Qed.

Lemma row_major_injective (c i j i' j' : nat) :
  (j < c)%nat -> (j' < c)%nat -> (i * c + j = i' * c + j')%nat ->
  i = i' /\ j = j'.
Proof.
  intros Hj Hj' E.
  destruct (Nat.lt_trichotomy i i') as [Lt|[Eq|Gt]].
  - pose proof (Nat.mul_le_mono_r (S i) i' c Lt). cbn in *. lia.
  - subst i'. split; [reflexivity | lia].
  - pose proof (Nat.mul_le_mono_r (S i') i c Gt). cbn in *. lia.
Qed.

(** C8.  An evaluation of the objective binarizes the selected training
    rows: it takes one draw of [npr.uniform] per pixel, each pixel its own
    (pixel [(i, j)] of an [n x c] batch reads draw [i * c + j]), all of them
    new (the generator moves [n * c] draws ahead, so the next evaluation
    reads other draws), and the pixel becomes 1.0 when its intensity exceeds
    its draw and 0.0 otherwise; every binarized pixel is 0 or 1.  The lower
    bound is then evaluated on this binarized batch. *)
Theorem binarize_fresh_draw_per_pixel (selected : matrix) (g : rng) :
  wf_matrix selected ->
  let n := nrows selected in
  let c := ncols selected in
  let '(images, g') := binarize selected g in
  nrows images = n /\ ncols images = c /\ wf_matrix images /\
  (forall i j, (i < n)%nat -> (j < c)%nat ->
     mget images i j =
     if Rgt_dec (mget selected i j) (uniform_tape g (i * c + j)) then 1 else 0) /\
  entries (fun x => x = 0 \/ x = 1) images /\
  (forall i j i' j', (j < c)%nat -> (j' < c)%nat ->
     (i * c + j = i' * c + j')%nat -> i = i' /\ j = j') /\
  (forall i j, (i < n)%nat -> (j < c)%nat -> (i * c + j < n * c)%nat) /\
  (forall k, uniform_tape g' k = uniform_tape g (n * c + k)) /\
  (forall unflat_params train_images batch flattened gen_params rec_params,
     unflat_params flattened = Ok (gen_params, rec_params) ->
     getitem_rows train_images batch = Ok selected ->
     objective unflat_params train_images batch flattened g =
     vae_lower_bound gen_params rec_params images g').
Proof.
  intros W n c.
  destruct (binarize selected g) as [images g'] eqn:B.
  assert (VAL : forall i j, (i < n)%nat -> (j < c)%nat ->
     mget images i j =
     if Rgt_dec (mget selected i j) (uniform_tape g (i * c + j)) then 1 else 0).
  { rewrite <- (mtab_mget selected W), binarize_mtab in B.
    injection B as <- _. intros i j Hi Hj.
    rewrite mget_mtab by assumption. unfold Rgtb. fold c.
    destruct (Rgt_dec (mget selected i j) (uniform_tape g (i * c + j))); lra. }
  assert (SH : nrows images = n /\ ncols images = c /\ wf_matrix images).
  { rewrite <- (mtab_mget selected W), binarize_mtab in B.
    injection B as <- _. split; [apply nrows_mtab|].
    split; [reflexivity | apply wf_mtab]. }
  destruct SH as (Hn & Hc & Hw).
  split; [exact Hn|]. split; [exact Hc|]. split; [exact Hw|].
  split; [exact VAL|]. split; [|split; [|split; [|split]]].
  - intros i j Hi Hj. rewrite Hn in Hi. rewrite Hc in Hj.
    rewrite (VAL i j Hi Hj).
    destruct (Rgt_dec (mget selected i j) (uniform_tape g (i * c + j)));
      [now right | now left].
  - intros i j i' j'. apply row_major_injective.
  - intros i j Hi Hj.
    pose proof (Nat.mul_le_mono_r (S i) n c Hi). cbn in *. lia.
  - rewrite <- (mtab_mget selected W), binarize_mtab in B.
    injection B as _ <-. reflexivity.
  - intros unflat_params train_images batch flattened gen_params rec_params HU HS.
    unfold objective. rewrite HU. cbn [bind]. rewrite HS. cbn [bind].
    now rewrite B.
Qed.

Lemma wf_tiny_images : wf_matrix tiny_images.
Proof. repeat constructor. Defined.

Lemma binarize_fresh_draw_per_pixel_witness :
  entries (fun x => x = 0 \/ x = 1) (fst (binarize tiny_images constant_rng)).
Proof.
  pose proof (binarize_fresh_draw_per_pixel tiny_images constant_rng
                wf_tiny_images) as H.
  cbv zeta in H.
  destruct (binarize tiny_images constant_rng) as [images g'].
  exact (proj1 (proj2 (proj2 (proj2 (proj2 H))))).
Defined.

(** ** The number of rows through the pipeline *)

Lemma bdim_n_1 (n : nat) : bdim n 1 = Ok n.
Proof. unfold bdim. destruct (Nat.eqb_spec n 1) as [->|]; reflexivity. Qed.

Lemma mbroadcast_nrows (f : R -> R -> R) (A B C : matrix) :
  mbroadcast f A B = Ok C -> nrows B = nrows A \/ nrows B = 1%nat ->
  nrows C = nrows A.
Proof.
  unfold mbroadcast. intros H HB.
  assert (Hn : bdim (nrows A) (nrows B) = Ok (nrows A)).
  { destruct HB as [->| ->]; [apply bdim_same | apply bdim_n_1]. }
  rewrite Hn in H. cbn [bind] in H. bind_inv H.
  injection H as <-. apply nrows_mtab.
Qed.

Lemma mapM_length {A B : Type} (f : A -> result B) (l : list A) (l' : list B) :
  mapM f l = Ok l' -> length l' = length l.
Proof.
  revert l'. induction l as [|x l IH]; intros l' H; cbn in H.
  - now injection H as <-.
  - bind_inv H. bind_inv H. injection H as <-. cbn. f_equal. now apply IH.
Qed.

Lemma affine_nrows (X Y W : matrix) (b : list R) :
  affine X W b = Ok Y -> nrows Y = nrows X.
Proof.
  unfold affine. cbn [np_dot add_bias NdArray_matrix]. intros H. bind_inv H.
  apply mbroadcast_nrows in H; [|now right].
  rewrite H. unfold mdot in E.
  destruct (Nat.eqb (ncols X) (nrows W)); [|discriminate].
  injection E as <-. unfold nrows. cbn [rows]. apply length_map.
Qed.

Lemma hidden_layers_nrows (ps : list layer) (X Y : matrix) :
  hidden_layers ps X = Ok Y -> nrows Y = nrows X.
Proof.
  revert X. induction ps as [|[W b] ps IH]; intros X H.
  - now injection H as <-.
  - cbn [hidden_layers] in H. bind_inv H.
    apply IH in H. cbn [np_relu NdArray_matrix] in H.
    rewrite H, nrows_mmap. now apply affine_nrows in E.
Qed.

Lemma neural_net_predict_nrows (ps : list layer) (X Y : matrix) :
  neural_net_predict ps X = Ok Y -> nrows Y = nrows X.
Proof.
  unfold neural_net_predict. intros H. bind_inv H. bind_inv H.
  destruct a0 as [outW outb]. apply affine_nrows in H.
  apply hidden_layers_nrows in E. congruence.
Qed.

Lemma nrows_cols_to (D : nat) (M : matrix) : nrows (cols_to D M) = nrows M.
Proof. unfold nrows, cols_to. cbn [rows]. apply length_map. Qed.

Lemma nrows_cols_from (D : nat) (M : matrix) : nrows (cols_from D M) = nrows M.
Proof. unfold nrows, cols_from. cbn [rows]. apply length_map. Qed.

Lemma sample_nrows (enc z : matrix) (g g' : rng) :
  sample_latent_variables_from_posterior enc g = Ok (z, g') ->
  nrows z = nrows enc.
Proof.
  unfold sample_latent_variables_from_posterior, npr_randn. intros H.
  bind_inv H. bind_inv H. injection H as <- _.
  apply mbroadcast_nrows in E0.
  - now rewrite E0, nrows_cols_to.
  - left. apply mbroadcast_nrows in E.
    + now rewrite E, nrows_mmap, nrows_cols_from, nrows_cols_to.
    + left. now rewrite nrows_mtab, nrows_mmap, nrows_cols_from, nrows_cols_to.
Qed.

Lemma mlog_nrows (M M' : matrix) : mlog M = Ok M' -> nrows M' = nrows M.
Proof.
  unfold mlog. intros H. bind_inv H. injection H as <-.
  unfold nrows. cbn [rows]. now apply mapM_length in E.
Qed.

Lemma bernoulli_log_prob_length (targets logits : matrix) (lp : list R) :
  bernoulli_log_prob targets logits = Ok lp -> nrows logits = nrows targets ->
  length lp = nrows targets.
Proof.
  unfold bernoulli_log_prob. intros H En.
  bind_inv H. bind_inv H. bind_inv H. bind_inv H. injection H as <-.
  unfold sum_axis1. rewrite length_map. fold (nrows a2).
  apply mlog_nrows in E2. rewrite E2.
  apply mbroadcast_nrows in E; [|left; now rewrite nrows_mmap].
  apply mbroadcast_nrows in E0; [|left; now rewrite !nrows_mmap].
  rewrite nrows_mmap in E0.
  apply mbroadcast_nrows in E1; [|left]; congruence.
Qed.

Lemma compute_KL_length (M : matrix) (kl : list R) :
  compute_KL M = Ok kl -> length kl = nrows M.
Proof.
  unfold compute_KL. intros H. bind_inv H. bind_inv H. injection H as <-.
  unfold vmap, sum_axis1. rewrite !length_map. fold (nrows a0).
  apply mbroadcast_nrows in E0.
  - rewrite E0, nrows_mmap. apply mbroadcast_nrows in E.
    + now rewrite E, nrows_mmap, nrows_cols_from.
    + left. now rewrite !nrows_mmap, nrows_cols_from, nrows_cols_to.
  - left. rewrite !nrows_mmap, nrows_cols_from.
    apply mbroadcast_nrows in E.
    + now rewrite E, nrows_mmap, nrows_cols_from.
    + left. now rewrite !nrows_mmap, nrows_cols_from, nrows_cols_to.
Qed.

(** ** The lower bound *)

Lemma np_mean_nonempty (x : list R) :
  length x <> 0%nat -> np_mean x = Ok (vsum x / INR (length x)).
Proof. destruct x; [contradiction | reflexivity]. Qed.

(** The value of the sampler on an encoder output of even width [2 * L]:
    [mean + exp(log_std) * noise], the noise being the next [n * L] normal
    draws. *)
Lemma sample_value (enc : matrix) (L : nat) (g : rng) :
  wf_matrix enc -> ncols enc = (2 * L)%nat ->
  sample_latent_variables_from_posterior enc g =
  Ok (mtab (nrows enc) L (fun i j =>
        mget enc i j + exp (mget enc i (L + j)) * normal_tape g (i * L + j)),
      Rng (uniform_tape g) (fun k => normal_tape g (nrows enc * L + k))).
Proof.
  intros W E. unfold sample_latent_variables_from_posterior, npr_randn.
  replace (Nat.div (ncols enc) 2) with L
    by (rewrite E, Nat.mul_comm; symmetry; apply Nat.div_mul; lia).
  rewrite cols_to_mtab, cols_from_mtab by (try assumption; lia).
  replace (ncols enc - L)%nat with L by lia.
  rewrite nrows_mtab, ncols_mtab, mmap_mtab, mbroadcast_mtab. cbn [bind].
  rewrite mbroadcast_mtab. reflexivity.
Qed.

(** On shapes that fit, the lower bound is defined: a well-formed batch with
    pixels in [[0, 1]], a recognition network that ends in [2 * L] columns
    and a generator from [L] latent dimensions back to the pixels. *)
Lemma vae_lower_bound_defined (gen_params rec_params : list layer)
  (data : matrix) (g : rng) (L : nat) :
  rec_params <> [] -> gen_params <> [] ->
  wf_matrix data -> nrows data <> 0%nat ->
  entries (fun t => 0 <= t <= 1) data ->
  conforms (ncols data) rec_params ->
  out_dim (ncols data) rec_params = (2 * L)%nat ->
  conforms L gen_params ->
  out_dim L gen_params = ncols data ->
  exists estimate g',
    vae_lower_bound gen_params rec_params data g = Ok (estimate, g').
Proof.
  intros NR NG WD HN HT CR OR CG OG.
  destruct (exists_last NR) as (rs & [RW rb] & ->).
  destruct (exists_last NG) as (gs & [GW gb] & ->).
  assert (ER : ncols RW = (2 * L)%nat) by (rewrite out_dim_app in OR; exact OR).
  assert (EG : ncols GW = ncols data) by (rewrite out_dim_app in OG; exact OG).
  destruct data as [c rows0]. cbn [ncols] in *.
  unfold vae_lower_bound.
  rewrite neural_net_predict_matrix by assumption. cbn [bind].
  set (enc := Matrix (ncols RW) (map (forward (rs ++ [(RW, rb)])) rows0)).
  assert (WE : wf_matrix enc).
  { apply wf_map_rows. intros r _. rewrite forward_snoc. apply length_affine_row. }
  rewrite (sample_value enc L g WE ER). cbn [bind].
  unfold mtab at 1.
  rewrite neural_net_predict_matrix;
    [|apply (wf_mtab (nrows enc) L)|exact CG].
  cbn [bind].
  match goal with
  | |- context [bernoulli_log_prob ?T ?X] =>
      rewrite (bernoulli_log_prob_value T X)
  end.
  - cbn [bind]. rewrite (compute_KL_value enc L WE ER). cbn [bind].
    rewrite vbroadcast_same
      by (rewrite !length_vtab; unfold enc, nrows; cbn [rows];
          now rewrite length_map).
    cbn [bind]. rewrite np_mean_nonempty by now rewrite !length_vtab.
    cbn [bind]. eauto.
  - exact WD.
  - apply wf_map_rows. intros r _. rewrite forward_snoc. apply length_affine_row.
  - split; [|cbn [ncols]; congruence].
    unfold nrows, enc. cbn [rows]. now rewrite !length_map, length_seq.
  - exact HT.
Qed.

(** C3.  Whenever the encoder output, the latent sample, the decoder output,
    the log-likelihood and the divergence are the values the code computes
    in that order, the log-likelihood and the divergence have one entry per
    batch row and [vae_lower_bound] returns [np.mean] of their difference:
    on a batch of N >= 1 rows, the sum over the rows of
    (log-likelihood - divergence) divided by N.  The generator is left in
    the state the sampler left it. *)
Theorem vae_lower_bound_is_mean (gen_params rec_params : list layer)
  (data : matrix) (g g' : rng)
  (encoder_output sampled_latent_variables decoder_output : matrix)
  (log_prob divergence : list R) :
  neural_net_predict rec_params data = Ok encoder_output ->
  sample_latent_variables_from_posterior encoder_output g
    = Ok (sampled_latent_variables, g') ->
  neural_net_predict gen_params sampled_latent_variables = Ok decoder_output ->
  bernoulli_log_prob data decoder_output = Ok log_prob ->
  compute_KL encoder_output = Ok divergence ->
  let diff := vtab (nrows data) (fun i => vget log_prob i - vget divergence i) in
  length log_prob = nrows data /\ length divergence = nrows data /\
  vae_lower_bound gen_params rec_params data g =
    (estimate <- np_mean diff ;; Ok (estimate, g')) /\
  (nrows data <> 0%nat ->
   vae_lower_bound gen_params rec_params data g =
   Ok (vsum diff / INR (nrows data), g')).
Proof.
  intros HE HS HD HL HK diff.
  assert (Ne : nrows encoder_output = nrows data)
    by now apply neural_net_predict_nrows in HE.
  assert (Nz : nrows sampled_latent_variables = nrows data)
    by (apply sample_nrows in HS; congruence).
  assert (Nd : nrows decoder_output = nrows data)
    by (apply neural_net_predict_nrows in HD; congruence).
  assert (Ll : length log_prob = nrows data)
    by now apply bernoulli_log_prob_length in HL.
  assert (Lk : length divergence = nrows data)
    by (apply compute_KL_length in HK; congruence).
  assert (V : vae_lower_bound gen_params rec_params data g =
              (estimate <- np_mean diff ;; Ok (estimate, g'))).
  { unfold vae_lower_bound.
    rewrite HE. cbn [bind]. rewrite HS. cbn [bind].
    rewrite HD. cbn [bind]. rewrite HL. cbn [bind]. rewrite HK. cbn [bind].
    rewrite vbroadcast_same by congruence. cbn [bind]. now rewrite Ll. }
  split; [exact Ll|]. split; [exact Lk|]. split; [exact V|].
  intros HN. rewrite V.
  rewrite np_mean_nonempty by (unfold diff; now rewrite length_vtab).
  cbn [bind]. unfold diff. now rewrite length_vtab.
Qed.

Lemma vae_lower_bound_is_mean_witness :
  exists estimate g',
    vae_lower_bound tiny_gen tiny_rec binary_target constant_rng
    = Ok (estimate, g').
Proof.
  eexists. eexists.
  eapply (vae_lower_bound_is_mean tiny_gen tiny_rec binary_target constant_rng).
  6: discriminate.
  - exact (neural_net_predict_matrix [] _ _ 2 _ wf_binary_target tiny_rec_conforms).
  - apply (sample_value _ 1).
    + apply wf_map_rows. intros r _. apply length_vtab.
    + reflexivity.
  - rewrite <- (mtab_mget (mtab _ _ _)) by apply wf_mtab.
    rewrite <- (mtab_mget (mtab _ _ _)) at 1 by apply wf_mtab.
    exact (neural_net_predict_matrix [] _ _ 1 _ (wf_mtab _ _ _) tiny_gen_conforms).
  - apply bernoulli_log_prob_value.
    + exact wf_binary_target.
    + apply wf_map_rows. intros r _. apply length_vtab.
    + split; reflexivity.
    + intros i j Hi Hj. destruct (binary_target_entries i j Hi Hj) as [E|E];
        rewrite E; lra.
  - apply (compute_KL_value _ 1).
    + apply wf_map_rows. intros r _. apply length_vtab.
    + reflexivity.
Defined.

(** ** The Adam update *)

Lemma vmap_vtab (f : R -> R) (n : nat) (a : nat -> R) :
  vmap f (vtab n a) = vtab n (fun i => f (a i)).
Proof. unfold vmap, vtab. now rewrite map_map. Qed.

Lemma vbroadcast_vtab (f : R -> R -> R) (n : nat) (a b : nat -> R) :
  vbroadcast f (vtab n a) (vtab n b) = Ok (vtab n (fun i => f (a i) (b i))).
Proof.
  rewrite vbroadcast_same by now rewrite !length_vtab.
  rewrite length_vtab. f_equal. apply vtab_ext. intros i Hi.
  now rewrite !vget_vtab.
Qed.

Lemma np_sqrt_vtab (n : nat) (a : nat -> R) :
  (forall i, (i < n)%nat -> 0 <= a i) ->
  Adam.np_sqrt (vtab n a) = Ok (vtab n (fun i => sqrt (a i))).
Proof.
  intros P. unfold Adam.np_sqrt, vtab. rewrite (mapM_ok _ sqrt).
  - now rewrite map_map.
  - intros x Hx. apply in_map_iff in Hx. destruct Hx as [i [<- Hi]].
    apply in_seq in Hi. destruct (Rle_dec 0 (a i)) as [_|N]; [reflexivity|].
    exfalso. apply N, P. lia.
Qed.

Lemma div_array_vtab (n : nat) (a b : nat -> R) :
  (forall i, (i < n)%nat -> b i <> 0) ->
  Adam.div_array (vtab n a) (vtab n b) = Ok (vtab n (fun i => a i / b i)).
Proof.
  intros P. unfold Adam.div_array.
  assert (Z : existsb (fun y => if Req_dec_T y 0 then true else false) (vtab n b)
              = false).
  { apply not_true_is_false. intros H. apply existsb_exists in H.
    destruct H as [y [Hy Hz]]. unfold vtab in Hy. apply in_map_iff in Hy.
    destruct Hy as [i [<- Hi]]. apply in_seq in Hi.
    destruct (Req_dec_T (b i) 0) as [E|_]; [|discriminate].
    apply (P i); [lia | exact E]. }
  rewrite Z. apply vbroadcast_vtab.
Qed.

Lemma iadd_vtab (n : nat) (a b : nat -> R) :
  Adam.iadd (vtab n a) (vtab n b) = Ok (vtab n (fun i => a i + b i)).
Proof.
  unfold Adam.iadd. rewrite vbroadcast_vtab. cbn [bind].
  now rewrite !length_vtab, Nat.eqb_refl.
Qed.

Lemma div_scalar_vtab (n : nat) (a : nat -> R) (d : R) :
  d <> 0 -> Adam.div_scalar (vtab n a) d = Ok (vtab n (fun i => a i / d)).
Proof.
  intros Hd. unfold Adam.div_scalar.
  destruct (Req_dec_T d 0) as [E|_]; [contradiction|].
  now rewrite vmap_vtab.
Qed.

Lemma bias_correction_pos (beta : R) (t : nat) :
  0 <= beta < 1 -> (1 <= t)%nat -> 0 < 1 - beta ^ t.
Proof.
  intros Hb Ht. pose proof (pow_lt_1_compat beta t Hb Ht). lra.
Qed.

Lemma adam_v_nonneg (v g : R) : 0 <= v -> 0 <= adam_v v g.
Proof.
  intros Hv. unfold adam_v, Adam.beta2. pose proof (pow2_ge_0 g). nra.
Qed.

Lemma v_hat_nonneg (v g : R) (t : nat) :
  0 <= v -> (1 <= t)%nat -> 0 <= adam_v v g / (1 - Adam.beta2 ^ t).
Proof.
  intros Hv Ht. apply Rmult_le_pos.
  - now apply adam_v_nonneg.
  - apply Rlt_le, Rinv_0_lt_compat, bias_correction_pos; [|assumption].
    unfold Adam.beta2. lra.
Qed.

Lemma update_vtab (n t : nat) (theta m v g : nat -> R) :
  (1 <= t)%nat -> (forall i, 0 <= v i) ->
  Adam.update (vtab n g) (Adam.State (vtab n theta) (vtab n m) (vtab n v) t) =
  Ok (Adam.State
        (vtab n (fun i => adam_theta (theta i) (m i) (v i) (g i) t))
        (vtab n (fun i => adam_m (m i) (g i)))
        (vtab n (fun i => adam_v (v i) (g i)))
        (t + 1)).
Proof.
  intros Ht Hv. unfold Adam.update.
  cbn [Adam.flattened_current_params Adam.m Adam.v Adam.t].
  rewrite !vmap_vtab, !vbroadcast_vtab. cbn [bind].
  assert (B1 : 1 - Adam.beta1 ^ t <> 0).
  { apply Rgt_not_eq, bias_correction_pos; [unfold Adam.beta1; lra | exact Ht]. }
  assert (B2 : 1 - Adam.beta2 ^ t <> 0).
  { apply Rgt_not_eq, bias_correction_pos; [unfold Adam.beta2; lra | exact Ht]. }
  rewrite !div_scalar_vtab by assumption. cbn [bind].
  rewrite np_sqrt_vtab by (intros i _; apply (v_hat_nonneg _ _ _ (Hv i) Ht)).
  cbn [bind]. rewrite !vmap_vtab.
  rewrite div_array_vtab.
  - cbn [bind]. rewrite iadd_vtab. reflexivity.
  - intros i _.
    pose proof (sqrt_pos (adam_v (v i) (g i) / (1 - Adam.beta2 ^ t))).
    unfold adam_v in *. unfold Adam.epsilon. lra.
Qed.

(** The value of one update, coordinate by coordinate. *)
Lemma update_value (grad : list R) (st : Adam.state) :
  adam_invariant st ->
  length grad = length (Adam.flattened_current_params st) ->
  let n := length (Adam.flattened_current_params st) in
  Adam.update grad st =
  Ok (Adam.State
        (vtab n (fun i => adam_theta (vget (Adam.flattened_current_params st) i)
                            (vget (Adam.m st) i) (vget (Adam.v st) i)
                            (vget grad i) (Adam.t st)))
        (vtab n (fun i => adam_m (vget (Adam.m st) i) (vget grad i)))
        (vtab n (fun i => adam_v (vget (Adam.v st) i) (vget grad i)))
        (Adam.t st + 1)).
Proof.
  intros (Lm & Lv & Ht & Hv) Lg n.
  destruct st as [theta m v t].
  cbn [Adam.flattened_current_params Adam.m Adam.v Adam.t] in *.
  rewrite <- (update_vtab n t (vget theta) (vget m) (vget v) (vget grad) Ht Hv).
  assert (Eg : vtab n (vget grad) = grad)
    by (unfold n; rewrite <- Lg; apply vtab_vget).
  assert (Em : vtab n (vget m) = m)
    by (unfold n; rewrite <- Lm; apply vtab_vget).
  assert (Ev : vtab n (vget v) = v)
    by (unfold n; rewrite <- Lv; apply vtab_vget).
  assert (Et : vtab n (vget theta) = theta) by apply vtab_vget.
  now rewrite Eg, Em, Ev, Et.
Qed.

Lemma vget_vtab_overflow (n : nat) (a : nat -> R) (i : nat) :
  (n <= i)%nat -> vget (vtab n a) i = 0.
Proof. intros Hi. unfold vget. apply nth_overflow. now rewrite length_vtab. Qed.

Lemma vget_zeros_like (x : list R) (i : nat) : vget (Adam.zeros_like x) i = 0.
Proof.
  unfold vget, Adam.zeros_like, vmap.
  now rewrite (nth_map_default (fun _ => 0) x i 0 0).
Qed.

Lemma init_invariant (theta : list R) : adam_invariant (Adam.init theta).
Proof.
  unfold adam_invariant, Adam.init, Adam.zeros_like, vmap.
  cbn [Adam.m Adam.v Adam.t Adam.flattened_current_params].
  rewrite !length_map. repeat split; auto.
  intros i. fold (vmap (fun _ : R => 0) theta). fold (Adam.zeros_like theta).
  rewrite vget_zeros_like. lra.
Qed.

Lemma update_invariant (grad : list R) (st st' : Adam.state) :
  adam_invariant st ->
  length grad = length (Adam.flattened_current_params st) ->
  Adam.update grad st = Ok st' ->
  adam_invariant st' /\
  Adam.t st' = (Adam.t st + 1)%nat /\
  length (Adam.flattened_current_params st')
  = length (Adam.flattened_current_params st).
Proof.
  intros Inv Lg U. rewrite (update_value grad st Inv Lg) in U.
  injection U as <-. destruct Inv as (Lm & Lv & Ht & Hv).
  unfold adam_invariant.
  cbn [Adam.flattened_current_params Adam.m Adam.v Adam.t].
  rewrite !length_vtab. repeat split; try lia.
  intros i.
  destruct (Nat.lt_ge_cases i (length (Adam.flattened_current_params st)))
    as [Hi|Hi].
  - rewrite vget_vtab by assumption. apply adam_v_nonneg, Hv.
  - rewrite vget_vtab_overflow by assumption. lra.
Qed.

Section TrainingLoop.

Variable objective_grad : list nat -> list R -> rng -> result (list R * rng).
Variable unflat_params : list R -> result params.
Variable train_images : matrix.
Variables N batch_size : nat.

(** A gradient has the shape of the point it is taken at. *)
Hypothesis objective_grad_shape : forall batch theta g grad g1,
  objective_grad batch theta g = Ok (grad, g1) -> length grad = length theta.

Lemma train_batch_invariant (n_batch : nat) (st st' : Adam.state)
  (elbo_est elbo_est' : R) (g g' : rng) :
  adam_invariant st ->
  Adam.train_batch objective_grad unflat_params train_images N batch_size
                   n_batch (st, elbo_est, g) = Ok (st', elbo_est', g') ->
  adam_invariant st' /\ Adam.t st' = (Adam.t st + 1)%nat.
Proof.
  intros Inv H. unfold Adam.train_batch in H.
  bind_inv H. destruct a as [grad g1]. bind_inv H. bind_inv H.
  destruct a0 as [elbo g2]. injection H as <- _ _.
  apply objective_grad_shape in E.
  destruct (update_invariant grad st a Inv E E0) as (I & T & _). now split.
Qed.

(** The step counter counts the mini-batches: it starts at 1 and has grown
    by one after each of them. *)
Lemma for_batches_invariant (batches : list nat) (st st' : Adam.state)
  (elbo_est elbo_est' : R) (g g' : rng) :
  adam_invariant st ->
  Adam.for_batches objective_grad unflat_params train_images N batch_size
                   batches (st, elbo_est, g) = Ok (st', elbo_est', g') ->
  adam_invariant st' /\ Adam.t st' = (Adam.t st + length batches)%nat.
Proof.
  revert st elbo_est g. induction batches as [|n_batch rest IH];
    intros st elbo_est g Inv H; cbn [Adam.for_batches] in H.
  - injection H as <- _ _. split; [exact Inv | cbn; lia].
  - bind_inv H. destruct a as [[st1 e1] g1].
    destruct (train_batch_invariant _ _ _ _ _ _ _ Inv E) as [I1 T1].
    destruct (IH _ _ _ I1 H) as [I' T']. split; [exact I'|].
    cbn [length]. lia.
Qed.

Lemma train_invariant (num_epochs : nat) (st st' : Adam.state) (g g' : rng) :
  adam_invariant st ->
  Adam.train objective_grad unflat_params train_images N batch_size
             num_epochs st g = Ok (st', g') ->
  adam_invariant st' /\
  Adam.t st' = (Adam.t st + num_epochs * Adam.num_batches N batch_size)%nat.
Proof.
  revert st g. induction num_epochs as [|k IH]; intros st g Inv H;
    cbn [Adam.train] in H.
  - injection H as <- _. split; [exact Inv | cbn; lia].
  - bind_inv H. destruct a as [[st1 e1] g1]. unfold Adam.train_epoch in E.
    destruct (for_batches_invariant _ _ _ _ _ _ _ Inv E) as [I1 T1].
    rewrite length_seq in T1.
    destruct (IH _ _ I1 H) as [I' T']. split; [exact I'|]. cbn. lia.
Qed.

End TrainingLoop.

(** C2.  Given the gradient [grad] at the current parameters, one mini-batch
    transition replaces, in every coordinate, [m] by
    [beta1*m + (1-beta1)*g], [v] by [beta2*v + (1-beta2)*g^2] and [theta] by
    [theta + alpha * m_hat / (sqrt(v_hat) + epsilon)] with
    [m_hat = m/(1-beta1^t)] and [v_hat = v/(1-beta2^t)] taken from the new
    moments, then increments [t]; the loop starts from [m = v = 0], [t = 1],
    with [alpha = 0.001], [beta1 = 0.9], [beta2 = 0.999], [epsilon = 1e-8];
    and the state of the training loop after a mini-batch is this update for
    the gradient that [objective_grad] returned at the current parameters. *)
Theorem adam_transition (grad : list R) (st : Adam.state) :
  adam_invariant st ->
  length grad = length (Adam.flattened_current_params st) ->
  let n := length (Adam.flattened_current_params st) in
  (exists st',
     Adam.update grad st = Ok st' /\
     (forall i, (i < n)%nat ->
        let g := vget grad i in
        let m' := Adam.beta1 * vget (Adam.m st) i + (1 - Adam.beta1) * g in
        let v' := Adam.beta2 * vget (Adam.v st) i + (1 - Adam.beta2) * g ^ 2 in
        let m_hat := m' / (1 - Adam.beta1 ^ Adam.t st) in
        let v_hat := v' / (1 - Adam.beta2 ^ Adam.t st) in
        vget (Adam.m st') i = m' /\
        vget (Adam.v st') i = v' /\
        vget (Adam.flattened_current_params st') i =
          vget (Adam.flattened_current_params st) i
          + Adam.alpha * m_hat / (sqrt v_hat + Adam.epsilon)) /\
     length (Adam.flattened_current_params st') = n /\
     Adam.t st' = (Adam.t st + 1)%nat /\
     adam_invariant st' /\
     (forall objective_grad unflat_params train_images N batch_size n_batch
             elbo_est g acc,
        Adam.train_batch objective_grad unflat_params train_images N batch_size
                         n_batch (st, elbo_est, g) = Ok acc ->
        exists grad0 g1,
          objective_grad (Adam.batch_of N batch_size n_batch)
                         (Adam.flattened_current_params st) g = Ok (grad0, g1) /\
          Adam.update grad0 st = Ok (fst (fst acc)))) /\
  (forall theta : list R,
     Adam.flattened_current_params (Adam.init theta) = theta /\
     (forall i, vget (Adam.m (Adam.init theta)) i = 0) /\
     (forall i, vget (Adam.v (Adam.init theta)) i = 0) /\
     Adam.t (Adam.init theta) = 1%nat /\
     adam_invariant (Adam.init theta)) /\
  Adam.alpha = 0.001 /\ Adam.beta1 = 0.9 /\ Adam.beta2 = 0.999 /\
  Adam.epsilon = 1e-8.
Proof.
  intros Inv Lg n. split; [|split].
  - eexists. split; [exact (update_value grad st Inv Lg)|].
    fold n. cbn [Adam.flattened_current_params Adam.m Adam.v Adam.t].
    destruct Inv as (Lm & Lv & Ht & Hv).
    split; [|split; [|split; [|split]]].
    + intros i Hi. cbv zeta. rewrite !vget_vtab by assumption.
      unfold adam_theta, adam_m, adam_v. repeat split; reflexivity.
    + apply length_vtab.
    + reflexivity.
    + unfold adam_invariant.
      cbn [Adam.flattened_current_params Adam.m Adam.v Adam.t].
      rewrite !length_vtab. repeat split; try lia.
      intros i. destruct (Nat.lt_ge_cases i n) as [Hi|Hi].
      * rewrite vget_vtab by assumption. apply adam_v_nonneg, Hv.
      * rewrite vget_vtab_overflow by assumption. lra.
    + intros objective_grad unflat_params train_images N batch_size n_batch
             elbo_est g acc H.
      unfold Adam.train_batch in H. bind_inv H. destruct a as [grad0 g1].
      bind_inv H. bind_inv H. destruct a0 as [elbo g2].
      injection H as <-. exists grad0, g1. split; [exact E|exact E0].
  - intros theta. split; [reflexivity|].
    split; [intros i; apply vget_zeros_like|].
    split; [intros i; apply vget_zeros_like|].
    split; [reflexivity | apply init_invariant].
  - repeat split; reflexivity.
Qed.

Lemma adam_transition_witness :
  exists st',
    Adam.update two_grads (Adam.init two_params) = Ok st' /\
    Adam.t st' = 2%nat.
Proof.
  destruct (proj1 (adam_transition two_grads (Adam.init two_params)
                     (init_invariant two_params) eq_refl))
    as (st' & U & _ & _ & T & _).
  exists st'. split; [exact U | exact T].
Defined.

(** ** Worked examples *)

Lemma relu_nonneg (x : R) : 0 <= x -> relu x = x.
Proof. intros Hx. unfold relu. apply Rmax_right. exact Hx. Qed.

Lemma relu_nonpos (x : R) : x <= 0 -> relu x = 0.
Proof. intros Hx. unfold relu. apply Rmax_left. exact Hx. Qed.

(** The hidden layer of [tiny_net] is the identity followed by ReLU, the
    output layer adds the two hidden units and 0.5: the row [[1, 2]] gives
    3.5, the row [[-1, 3]] is clipped to [[0, 3]] and gives 3.5 too. *)
Example neural_net_predict_tiny_net :
  neural_net_predict tiny_net tiny_batch = Ok (Matrix 1 [[3.5]; [3.5]]).
Proof.
  change tiny_net with
    ([(Matrix 2 [[1.0; 0.0]; [0.0; 1.0]], [0.0; 0.0])]
     ++ [(Matrix 1 [[1.0]; [1.0]], [0.5])]).
  unfold tiny_batch.
  rewrite neural_net_predict_matrix
    by (try exact wf_tiny_batch; exact tiny_net_conforms).
  cbn [map app forward hidden_rows affine_row vtab seq vmap vsum fold_right
       vget mget nth rows ncols nrows length].
  rewrite !relu_nonneg by lra.
  rewrite (relu_nonpos (-1.0 * 1.0 + (3.0 * 0.0 + 0) + 0.0)) by lra.
  rewrite !relu_nonneg by lra.
  repeat f_equal; lra.
Qed.

(** A batch of width two does not fit a generator that expects one latent
    dimension: [np.dot] raises. *)
Example neural_net_predict_unaligned :
  neural_net_predict tiny_gen tiny_batch = Raise ValueError.
Proof. reflexivity. Qed.

(** With every uniform draw equal to 0.5, the intensities 0.25 and 0 become
    0 and the intensities 0.75 and 1 become 1. *)
Example binarize_tiny_images :
  fst (binarize tiny_images constant_rng) = Matrix 2 [[0; 1]; [1; 0]].
Proof.
  unfold binarize, tiny_images, constant_rng, npr_uniform, setitem_mask.
  cbn [fst map combine seq mmap vmap mtab vtab rows ncols nrows length
       mget vget nth uniform_tape Nat.mul Nat.add].
  unfold Rgtb.
  repeat match goal with
         | |- context [Rgt_dec ?a ?b] => destruct (Rgt_dec a b); try lra
         end.
  repeat f_equal; lra.
Qed.

(** A buffer that is too short cannot be unflattened. *)
Example unflatten_short_buffer :
  unflatten (tiny_gen, tiny_rec) [1.0; 2.0; 3.0] = Raise ValueError.
Proof. reflexivity. Qed.

(** The posterior that is exactly the standard normal (mean 0, log-std 0)
    has divergence 0 in every row, for every batch size. *)
Lemma compute_KL_standard_normal (n L : nat) :
  compute_KL (mtab n (2 * L) (fun _ _ => 0)) = Ok (vtab n (fun _ => 0)).
Proof.
  rewrite (compute_KL_value _ L) by (try apply wf_mtab; reflexivity).
  rewrite nrows_mtab. f_equal. apply vtab_ext. intros i Hi.
  assert (Z : forall l, (forall x, In x l -> x = 0) -> vsum l = 0).
  { induction l as [|a l IH]; intros Q; [reflexivity|].
    change (vsum (a :: l)) with (a + vsum l).
    rewrite (Q a) by now left. rewrite IH by (intros; apply Q; now right). lra. }
  rewrite Z; [lra|].
  intros x Hx. unfold vtab in Hx. apply in_map_iff in Hx.
  destruct Hx as [j [<- Hj]]. apply in_seq in Hj.
  rewrite !mget_mtab by lia. unfold kl_term.
  replace (0 * 2) with 0 by lra. rewrite exp_0. lra.
Qed.

(** The first step from [m = v = 0], [t = 1]: the bias corrections undo the
    factors [1 - beta1] and [1 - beta2], so the parameter moves by
    [alpha * g / (|g| + epsilon)]. *)
Lemma first_adam_step (theta g : R) :
  adam_theta theta 0 0 g 1 = theta + Adam.alpha * g / (Rabs g + Adam.epsilon).
Proof.
  unfold adam_theta, adam_m, adam_v, Adam.beta1, Adam.beta2.
  replace ((0.9 * 0 + (1 - 0.9) * g) / (1 - 0.9 ^ 1)) with g by (field; lra).
  replace ((0.999 * 0 + (1 - 0.999) * g ^ 2) / (1 - 0.999 ^ 1)) with (Rsqr g)
    by (unfold Rsqr; field; lra).
  now rewrite sqrt_Rsqr_abs.
Qed.

(** The middle coefficient of the interpolation is one half. *)
Example linspace_middle : vget (linspace 0.0 1.0 25) 12 = 0.5.
Proof. rewrite linspace_0_1_25 by lia. rewrite INR_IZR_INZ. cbn. lra. Qed.

(* ===================================================================== *)
(** * Further properties of the code *)

(** ** Bounds on the log-likelihood *)

Lemma log_argument_lt_1 (targets logits : matrix) (i j : nat) :
  0 <= mget targets i j <= 1 -> log_argument targets logits i j < 1.
Proof.
  intros [L U]. unfold log_argument.
  pose proof (sigmoid_pos (mget logits i j)).
  pose proof (sigmoid_lt_1 (mget logits i j)).
  destruct (Rle_dec (mget targets i j) (1 / 2)); nra.
Qed.

Lemma ln_neg (x : R) : 0 < x < 1 -> ln x < 0.
Proof. intros [P U]. rewrite <- ln_1. now apply ln_increasing. Qed.

Lemma vsum_vtab_le (n : nat) (g h : nat -> R) :
  (forall i, (i < n)%nat -> g i <= h i) -> vsum (vtab n g) <= vsum (vtab n h).
Proof.
  intros P. unfold vtab.
  assert (G : forall l, (forall i, In i l -> g i <= h i) ->
                        vsum (map g l) <= vsum (map h l)).
  { induction l as [|a l IH]; intros Q.
    - cbn. lra.
    - change (g a + vsum (map g l) <= h a + vsum (map h l)).
      pose proof (Q a (or_introl eq_refl)).
      assert (vsum (map g l) <= vsum (map h l)) by (apply IH; intros; apply Q; now right).
      lra. }
  apply G. intros i Hi. apply in_seq in Hi. apply P. lia.
Qed.

Lemma vsum_vtab_zero (n : nat) : vsum (vtab n (fun _ => 0)) = 0.
Proof.
  unfold vtab. induction (seq 0 n) as [|a l IH]; [reflexivity|].
  change (0 + vsum (map (fun _ : nat => 0) l) = 0). rewrite IH. lra.
Qed.

(** X2.  For targets in [[0, 1]] and logits of the same shape
    [bernoulli_log_prob] returns one number per row and every one of them
    is at most 0: it is the logarithm of a probability. *)
Theorem bernoulli_log_prob_nonpositive (targets logits : matrix) :
  wf_matrix targets -> wf_matrix logits -> same_shape targets logits ->
  entries (fun t => 0 <= t <= 1) targets ->
  exists log_prob,
    bernoulli_log_prob targets logits = Ok log_prob /\
    length log_prob = nrows targets /\
    forall i, (i < nrows targets)%nat -> vget log_prob i <= 0.
Proof.
  intros WT WL SS HT. eexists.
  split; [now apply bernoulli_log_prob_value|].
  split; [apply length_vtab|].
  intros i Hi. rewrite vget_vtab by assumption.
  rewrite <- (vsum_vtab_zero (ncols targets)). apply vsum_vtab_le.
  intros j Hj. apply Rlt_le, ln_neg. split.
  - apply log_argument_pos. now apply HT.
  - apply log_argument_lt_1. now apply HT.
Qed.

Lemma bernoulli_log_prob_nonpositive_witness :
  exists log_prob,
    bernoulli_log_prob half_target unit_logit = Ok log_prob /\
    length log_prob = nrows half_target /\
    forall i, (i < nrows half_target)%nat -> vget log_prob i <= 0.
Proof.
  apply (bernoulli_log_prob_nonpositive half_target unit_logit).
  - exact wf_half_target.
  - exact wf_unit_logit.
  - split; reflexivity.
  - intros i j Hi Hj. cbn in Hi, Hj.
    destruct i as [|i]; [|exfalso; lia]. destruct j as [|j]; [|exfalso; lia].
    cbn. lra.
Defined.

(** ** The divergence of the prior *)



(** ** The sampler *)

(** X5.  On an encoder output of [n] rows and even width [2 * L] the sampler
    returns an [n x L] array whose entry [(i, j)] is
    [mean + exp(log_std) * noise] for the mean in column [j], the
    log-standard-deviation in column [L + j] and the normal draw number
    [i * L + j]; it takes [n * L] normal draws and no uniform draw. *)
Theorem sample_reparametrization (encoder_output : matrix) (L : nat) (g : rng) :
  wf_matrix encoder_output -> ncols encoder_output = (2 * L)%nat ->
  exists z_i,
    sample_latent_variables_from_posterior encoder_output g
    = Ok (z_i, after_normal (nrows encoder_output * L) g) /\
    wf_matrix z_i /\ nrows z_i = nrows encoder_output /\ ncols z_i = L /\
    forall i j, (i < nrows encoder_output)%nat -> (j < L)%nat ->
      mget z_i i j =
      mget encoder_output i j
      + exp (mget encoder_output i (L + j)) * normal_tape g (i * L + j).
Proof.
  intros W E. eexists.
  split; [exact (sample_value encoder_output L g W E)|].
  split; [apply wf_mtab|]. split; [apply nrows_mtab|]. split; [reflexivity|].
  intros i j Hi Hj. now apply mget_mtab.
Qed.

Lemma sample_reparametrization_witness :
  exists z_i,
    sample_latent_variables_from_posterior two_posteriors constant_rng
    = Ok (z_i, after_normal (nrows two_posteriors * 2) constant_rng) /\
    wf_matrix z_i /\ nrows z_i = nrows two_posteriors /\ ncols z_i = 2%nat /\
    forall i j, (i < nrows two_posteriors)%nat -> (j < 2)%nat ->
      mget z_i i j =
      mget two_posteriors i j
      + exp (mget two_posteriors i (2 + j)) * normal_tape constant_rng (i * 2 + j).
Proof.
  apply (sample_reparametrization two_posteriors 2 constant_rng).
  - exact wf_two_posteriors.
  - reflexivity.
Defined.

(** X6.  An encoder output of odd width [2 * L + 1] with [L >= 2] is
    rejected: its [L] mean columns do not broadcast against its [L + 1]
    log-standard-deviation columns, so both the sampler and [compute_KL]
    raise [ValueError]. *)
Theorem odd_width_rejected (M : matrix) (L : nat) (g : rng) :
  (2 <= L)%nat -> ncols M = (2 * L + 1)%nat ->
  sample_latent_variables_from_posterior M g = Raise ValueError /\
  compute_KL M = Raise ValueError.
Proof.
  intros HL E.
  assert (D : Nat.div (ncols M) 2 = L).
  { rewrite E. symmetry. apply (Nat.div_unique _ 2 L 1); lia. }
  assert (B1 : bdim (L + 1) L = Raise ValueError).
  { unfold bdim. destruct (Nat.eqb_spec (L + 1) L); [lia|].
    destruct (Nat.eqb_spec (L + 1) 1); [lia|].
    destruct (Nat.eqb_spec L 1); [lia | reflexivity]. }
  split.
  - unfold sample_latent_variables_from_posterior, npr_randn. rewrite D.
    unfold mbroadcast at 1.
    rewrite nrows_mmap, nrows_mtab, nrows_cols_from, nrows_cols_to, bdim_same.
    cbn [bind ncols cols_to cols_from mmap mtab].
    replace (ncols M - L)%nat with (L + 1)%nat by lia.
    replace (Nat.min L (ncols M)) with L by lia.
    now rewrite B1.
  - unfold compute_KL. rewrite D. unfold mbroadcast at 1.
    rewrite !nrows_mmap, nrows_cols_from, nrows_cols_to, bdim_same.
    cbn [bind ncols cols_to cols_from mmap].
    replace (ncols M - L)%nat with (L + 1)%nat by lia.
    replace (Nat.min L (ncols M)) with L by lia.
    now rewrite B1.
Qed.

Lemma odd_width_rejected_witness :
  sample_latent_variables_from_posterior odd_posteriors constant_rng
  = Raise ValueError /\
  compute_KL odd_posteriors = Raise ValueError.
Proof.
  apply (odd_width_rejected odd_posteriors 2 constant_rng).
  - lia.
  - reflexivity.
Defined.

(** ** The initial parameters *)

Lemma map_seq_shift {A : Type} (f : nat -> A) (a b n : nat) :
  map (fun k => f (a + k)%nat) (seq b n) = map f (seq (a + b) n).
Proof.
  revert b. induction n as [|n IH]; intros b; [reflexivity|].
  cbn [seq map]. rewrite IH. now rewrite Nat.add_succ_r.
Qed.

(** The rows of a table of a row-major enumeration, one after the other. *)
Lemma concat_row_major (m n : nat) (h : nat -> R) :
  concat (rows (mtab m n (fun i j => h (i * n + j)%nat))) = map h (seq 0 (m * n)).
Proof.
  unfold mtab, vtab. cbn [rows].
  induction m as [|m IH]; [reflexivity|].
  rewrite seq_S, map_app, concat_app, IH. cbn [map concat Nat.add].
  rewrite app_nil_r, (map_seq_shift h (m * n) 0 n), Nat.add_0_r.
  replace (S m * n)%nat with (m * n + n)%nat by lia.
  now rewrite seq_app, map_app.
Qed.

Lemma pairs_of_cons (a b : nat) (l : list nat) :
  pairs_of (a :: b :: l) = (a, b) :: pairs_of (b :: l).
Proof. reflexivity. Qed.

Lemma init_layers_spec (scale : R) (sizes : list (nat * nat)) (g : rng) :
  snd (init_layers scale sizes g) = after_normal (draws_of sizes) g /\
  map (fun l : layer => (nrows (fst l), ncols (fst l), length (snd l)))
      (fst (init_layers scale sizes g))
  = map (fun s : nat * nat => (fst s, snd s, snd s)) sizes /\
  wf_layers (fst (init_layers scale sizes g)) /\
  numbers_of (fst (init_layers scale sizes g))
  = map (fun k => scale * normal_tape g k) (seq 0 (draws_of sizes)).
Proof.
  revert g. induction sizes as [|[m n] sizes IH]; intros g.
  - cbn. repeat split; try constructor. destruct g. reflexivity.
  - cbn [init_layers draws_of]. unfold npr_randn, npr_randn1.
    cbn [uniform_tape normal_tape].
    set (g2 := Rng (uniform_tape g)
                   (fun k => normal_tape g (m * n + (n + k))%nat)).
    destruct (IH g2) as (Hg & Hs & Hw & Hn).
    destruct (init_layers scale sizes g2) as [ps g3] eqn:EI.
    cbn [fst snd] in *. split; [|split; [|split]].
    + rewrite Hg. unfold after_normal, g2. cbn [uniform_tape normal_tape].
      f_equal.
      apply FunctionalExtensionality.functional_extensionality. intros k.
      f_equal. lia.
    + cbn [map fst snd]. rewrite Hs. f_equal.
      rewrite nrows_mmap, nrows_mtab. unfold vmap, vtab.
      now rewrite !length_map, length_seq.
    + constructor; [|exact Hw]. cbn [fst]. rewrite mmap_mtab. apply wf_mtab.
    + unfold numbers_of in *. cbn [flat_map fst snd]. rewrite Hn.
      rewrite mmap_mtab.
      rewrite (concat_row_major m n (fun k => scale * normal_tape g k)).
      unfold vmap, vtab. rewrite map_map.
      rewrite (map_seq_shift (fun k => scale * normal_tape g k) (m * n) 0 n).
      unfold g2. cbn [normal_tape].
      rewrite (map_ext (fun k => scale * normal_tape g (m * n + (n + k))%nat)
                       (fun k => (fun k' => scale * normal_tape g k')
                                   ((m * n + n) + k)%nat))
        by (intros k; f_equal; f_equal; lia).
      rewrite (map_seq_shift (fun k => scale * normal_tape g k) (m * n + n) 0).
      rewrite !Nat.add_0_r, <- !map_app. f_equal.
      rewrite (seq_app (m * n + n) (draws_of sizes) 0), (seq_app (m * n) n 0).
      reflexivity.
Qed.

Lemma conforms_of_shapes (ps : list layer) (a : nat) (l : list nat) :
  map (fun p : layer => (nrows (fst p), ncols (fst p), length (snd p))) ps
  = map (fun s : nat * nat => (fst s, snd s, snd s)) (pairs_of (a :: l)) ->
  length ps = length l /\ conforms a ps /\ out_dim a ps = last (a :: l) 0%nat.
Proof.
  revert a ps. induction l as [|b l IH]; intros a ps H.
  - destruct ps; [cbn; auto | discriminate].
  - rewrite pairs_of_cons in H. destruct ps as [|[W bias] ps]; [discriminate|].
    cbn [map fst snd] in H. injection H as Hr Hc Hb Hrest.
    destruct (IH b ps Hrest) as (Hl & Hcf & Ho).
    cbn [length conforms out_dim]. rewrite Hc.
    repeat split; try congruence.
    rewrite Ho. reflexivity.
Qed.

Lemma init_net_params_layout (layer_sizes : list nat) (scale : R) (g : rng) :
  let ps := fst (init_net_params layer_sizes scale g) in
  let draws := draws_of (pairs_of layer_sizes) in
  length ps = (length layer_sizes - 1)%nat /\
  wf_layers ps /\
  conforms (hd 0%nat layer_sizes) ps /\
  out_dim (hd 0%nat layer_sizes) ps = last layer_sizes 0%nat /\
  numbers_of ps = map (fun k => scale * normal_tape g k) (seq 0 draws) /\
  snd (init_net_params layer_sizes scale g) = after_normal draws g.
Proof.
  cbv zeta. unfold init_net_params. fold (pairs_of layer_sizes).
  destruct (init_layers_spec scale (pairs_of layer_sizes) g) as (Hg & Hs & Hw & Hn).
  destruct layer_sizes as [|a l].
  - cbn in *. repeat split; auto.
  - destruct (conforms_of_shapes _ a l Hs) as (Hl & Hc & Ho).
    cbn [length hd]. replace (S (length l) - 1)%nat with (length l) by lia.
    repeat split; assumption.
Qed.

(** X7.  [init_net_params] returns one layer per consecutive pair of layer
    sizes: none at all for fewer than two sizes; otherwise well-formed
    weight matrices whose shapes chain from the first size to the last.  Its
    numbers are, in order, [scale] times the next normal draws of the
    generator, [m * n + n] of them for a layer from [m] to [n] units, and
    the generator is left that many draws further on. *)
Theorem init_net_params_shapes (layer_sizes : list nat) (scale : R) (g : rng) :
  let ps := fst (init_net_params layer_sizes scale g) in
  let draws := draws_of (pairs_of layer_sizes) in
  length ps = (length layer_sizes - 1)%nat /\
  wf_layers ps /\
  conforms (hd 0%nat layer_sizes) ps /\
  out_dim (hd 0%nat layer_sizes) ps = last layer_sizes 0%nat /\
  numbers_of ps = map (fun k => scale * normal_tape g k) (seq 0 draws) /\
  snd (init_net_params layer_sizes scale g) = after_normal draws g.
Proof. apply init_net_params_layout. Qed.

(** ** The lower bound is the logarithm of a probability minus a divergence *)

(** The lower bound on shapes that fit: its value is at most 0 and the
    generator has moved by the [n * L] normal draws of the sampler. *)
Lemma vae_lower_bound_fits (gen_params rec_params : list layer)
  (data : matrix) (g : rng) (L : nat) :
  rec_params <> [] -> gen_params <> [] ->
  wf_matrix data -> nrows data <> 0%nat ->
  entries (fun t => 0 <= t <= 1) data ->
  conforms (ncols data) rec_params ->
  out_dim (ncols data) rec_params = (2 * L)%nat ->
  conforms L gen_params ->
  out_dim L gen_params = ncols data ->
  exists estimate,
    vae_lower_bound gen_params rec_params data g
    = Ok (estimate, after_normal (nrows data * L) g) /\
    estimate <= 0.
Proof.
  intros NR NG WD HN HT CR OR CG OG.
  destruct (exists_last NR) as (rs & [RW rb] & ->).
  destruct (exists_last NG) as (gs & [GW gb] & ->).
  assert (ER : ncols RW = (2 * L)%nat) by (rewrite out_dim_app in OR; exact OR).
  assert (EG : ncols GW = ncols data) by (rewrite out_dim_app in OG; exact OG).
  destruct data as [c rows0]. cbn [ncols] in *.
  unfold nrows in HN |- *. cbn [rows] in HN |- *.
  set (enc := Matrix (ncols RW) (map (forward (rs ++ [(RW, rb)])) rows0)).
  assert (WE : wf_matrix enc).
  { apply wf_map_rows. intros r _. rewrite forward_snoc. apply length_affine_row. }
  assert (NE : nrows enc = length rows0)
    by (unfold enc, nrows; cbn [rows]; apply length_map).
  set (z := mtab (nrows enc) L (fun i j =>
              mget enc i j + exp (mget enc i (L + j)) * normal_tape g (i * L + j))).
  set (dec := Matrix (ncols GW) (map (forward (gs ++ [(GW, gb)])) (rows z))).
  assert (WDec : wf_matrix dec).
  { apply wf_map_rows. intros r _. rewrite forward_snoc. apply length_affine_row. }
  assert (SD : same_shape (Matrix c rows0) dec).
  { split; [|unfold dec; cbn [ncols]; congruence].
    unfold nrows, dec, z. cbn [rows]. rewrite length_map.
    fold (nrows (mtab (nrows enc) L
                   (fun i j => mget enc i j
                      + exp (mget enc i (L + j)) * normal_tape g (i * L + j)))).
    now rewrite nrows_mtab, NE. }
  eexists. split.
  - unfold vae_lower_bound.
    rewrite neural_net_predict_matrix by assumption. cbn [bind]. fold enc.
    rewrite (sample_value enc L g WE ER). cbn [bind]. fold z.
    replace z with (Matrix L (rows z)) at 1 by reflexivity.
    rewrite neural_net_predict_matrix; [|apply (wf_mtab (nrows enc) L)|exact CG].
    cbn [bind]. fold dec.
    rewrite (bernoulli_log_prob_value (Matrix c rows0) dec WD WDec SD HT).
    cbn [bind]. rewrite (compute_KL_value enc L WE ER). cbn [bind].
    unfold nrows at 1. cbn [rows]. rewrite NE.
    rewrite vbroadcast_vtab. cbn [bind].
    rewrite np_mean_nonempty by now rewrite length_vtab.
    cbn [bind]. rewrite length_vtab. unfold after_normal. reflexivity.
  - rewrite <- (vsum_vtab_zero (length rows0)). unfold Rdiv.
    assert (P : 0 < INR (length rows0)) by (apply lt_0_INR; lia).
    pose proof (Rinv_0_lt_compat _ P) as Q.
    assert (S0 : vsum (vtab (length rows0) (fun i =>
                   vsum (vtab (ncols (Matrix c rows0)) (fun j =>
                     ln (log_argument (Matrix c rows0) dec i j)))
                   - 0.5 * vsum (vtab L (fun j =>
                       kl_term (mget enc i j) (mget enc i (L + j))))))
                 <= vsum (vtab (length rows0) (fun _ => 0))).
    { apply vsum_vtab_le. intros i Hi.
      assert (A : vsum (vtab (ncols (Matrix c rows0)) (fun j =>
                    ln (log_argument (Matrix c rows0) dec i j))) <= 0).
      { rewrite <- (vsum_vtab_zero (ncols (Matrix c rows0))).
        apply vsum_vtab_le. intros j Hj. apply Rlt_le, ln_neg. split.
        - apply log_argument_pos. now apply HT.
        - apply log_argument_lt_1. now apply HT. }
      assert (B : 0 <= vsum (vtab L (fun j =>
                    kl_term (mget enc i j) (mget enc i (L + j)))))
        by (apply vsum_vtab_nonneg; intros j _; apply kl_term_nonneg).
      lra. }
    rewrite vsum_vtab_zero in S0 |- *. nra.
Qed.

Lemma one_image_wf : wf_matrix one_image.
Proof. repeat constructor. Defined.

Lemma one_image_entries : entries (fun t => 0 <= t <= 1) one_image.
Proof.
  intros i j Hi Hj. cbn in Hi, Hj.
  destruct i as [|i]; [|exfalso; lia].
  destruct j as [|[|j]]; [| |exfalso; lia]; cbn; lra.
Defined.

(** X8.  On shapes that fit (a well-formed batch of at least one row with
    pixels in [[0, 1]], a recognition network from the pixels to [2 * L]
    columns, a generator from [L] latent dimensions back to the pixels)
    [vae_lower_bound] raises nothing: it returns an estimate, and it leaves
    the generator [n * L] normal draws further on and no uniform draw, [n]
    being the number of rows of the batch.  The only random numbers of an
    evaluation are those of its one call of the sampler. *)
Theorem vae_lower_bound_draws (gen_params rec_params : list layer)
  (data : matrix) (g : rng) (L : nat) :
  rec_params <> [] -> gen_params <> [] ->
  wf_matrix data -> nrows data <> 0%nat ->
  entries (fun t => 0 <= t <= 1) data ->
  conforms (ncols data) rec_params ->
  out_dim (ncols data) rec_params = (2 * L)%nat ->
  conforms L gen_params ->
  out_dim L gen_params = ncols data ->
  exists estimate,
    vae_lower_bound gen_params rec_params data g
    = Ok (estimate, after_normal (nrows data * L) g).
Proof.
  intros NR NG WD HN HT CR OR CG OG.
  destruct (vae_lower_bound_fits gen_params rec_params data g L
              NR NG WD HN HT CR OR CG OG) as (estimate & E & _).
  exists estimate. exact E.
Qed.

Lemma vae_lower_bound_draws_witness :
  exists estimate,
    vae_lower_bound tiny_gen tiny_rec one_image constant_rng
    = Ok (estimate, after_normal (nrows one_image * 1) constant_rng).
Proof.
  apply (vae_lower_bound_draws tiny_gen tiny_rec one_image constant_rng 1).
  - exact tiny_rec_nonempty.
  - exact tiny_gen_nonempty.
  - exact one_image_wf.
  - discriminate.
  - exact one_image_entries.
  - exact tiny_rec_conforms.
  - reflexivity.
  - exact tiny_gen_conforms.
  - reflexivity.
Defined.

(** ** The networks of the script fit each other *)

Lemma last_sizes (a d : nat) (mid : list nat) :
  last ([a] ++ mid ++ [d]) 0%nat = d.
Proof. rewrite app_assoc. apply last_last. Qed.

Lemma length_sizes (a d : nat) (mid : list nat) :
  length ([a] ++ mid ++ [d]) = (length mid + 2)%nat.
Proof. rewrite !length_app. cbn. lia. Qed.

(** X9.  Whatever the four hyper-parameters, the parameters the script
    starts from fit each other: both networks have [n_layers + 1] layers,
    the recognition network goes from [data_dim] pixels to
    [2 * latent_dim] columns and the generator from [latent_dim] latent
    dimensions back to [data_dim] pixels.  Hence on every well-formed batch
    of at least one row, of width [data_dim] and with pixels in [[0, 1]],
    [vae_lower_bound] of the initial parameters returns a value, and that
    value is at most 0. *)
Theorem combined_params_init_fit (latent_dim data_dim n_units n_layers : nat)
  (g : rng) :
  let gen := fst (fst (combined_params_init latent_dim data_dim n_units n_layers g)) in
  let rec := snd (fst (combined_params_init latent_dim data_dim n_units n_layers g)) in
  length gen = (n_layers + 1)%nat /\ length rec = (n_layers + 1)%nat /\
  conforms data_dim rec /\ out_dim data_dim rec = (2 * latent_dim)%nat /\
  conforms latent_dim gen /\ out_dim latent_dim gen = data_dim /\
  forall (data : matrix) (g' : rng),
    wf_matrix data -> ncols data = data_dim -> nrows data <> 0%nat ->
    entries (fun t => 0 <= t <= 1) data ->
    exists estimate,
      vae_lower_bound gen rec data g'
      = Ok (estimate, after_normal (nrows data * latent_dim) g') /\
      estimate <= 0.
Proof.
  cbv zeta. unfold combined_params_init.
  pose proof (init_net_params_layout
                (gen_layer_sizes latent_dim data_dim n_units n_layers)
                default_scale g) as HG.
  destruct (init_net_params (gen_layer_sizes latent_dim data_dim n_units n_layers)
              default_scale g) as [gen g1].
  pose proof (init_net_params_layout
                (rec_layer_sizes latent_dim data_dim n_units n_layers)
                default_scale g1) as HR.
  destruct (init_net_params (rec_layer_sizes latent_dim data_dim n_units n_layers)
              default_scale g1) as [rec g2].
  cbv zeta in HG, HR. cbn [fst snd] in *.
  destruct HG as (LG & _ & CG & OG & _). destruct HR as (LR & _ & CR & OR & _).
  unfold gen_layer_sizes in LG, CG, OG. unfold rec_layer_sizes in LR, CR, OR.
  rewrite length_sizes, repeat_length in LG, LR.
  rewrite last_sizes in OG, OR. cbn [hd app] in CG, OG, CR, OR.
  replace (n_layers + 2 - 1)%nat with (n_layers + 1)%nat in LG, LR by lia.
  rewrite (Nat.mul_comm latent_dim 2) in OR.
  repeat (split; [assumption|]).
  intros data g' WD EC HN HT.
  apply vae_lower_bound_fits; rewrite ?EC; try assumption.
  - intros ->. cbn in LR. lia.
  - intros ->. cbn in LG. lia.
Qed.

Lemma combined_params_init_fit_witness :
  exists estimate,
    vae_lower_bound
      (fst (fst (combined_params_init 1 2 3 1 constant_rng)))
      (snd (fst (combined_params_init 1 2 3 1 constant_rng)))
      one_image constant_rng
    = Ok (estimate, after_normal (nrows one_image * 1) constant_rng) /\
    estimate <= 0.
Proof.
  apply (proj2 (proj2 (proj2 (proj2 (proj2 (proj2
           (combined_params_init_fit 1 2 3 1 constant_rng)))))) one_image constant_rng).
  - exact one_image_wf.
  - reflexivity.
  - discriminate.
  - exact one_image_entries.
Defined.

(** ** The mini-batches of an epoch *)

Lemma batch_of_eq (N batch_size n_batch : nat) :
  Adam.batch_of N batch_size n_batch =
  seq (batch_size * n_batch)
      (Nat.min N (batch_size * (n_batch + 1)) - batch_size * n_batch).
Proof. reflexivity. Qed.

Lemma batches_prefix (N batch_size k : nat) :
  concat (map (Adam.batch_of N batch_size) (seq 0 k))
  = seq 0 (Nat.min N (batch_size * k)).
Proof.
  induction k as [|k IH].
  - cbn. now rewrite Nat.mul_0_r, Nat.min_0_r.
  - rewrite seq_S, map_app, concat_app, IH. cbn [map concat Nat.add].
    rewrite app_nil_r, batch_of_eq.
    destruct (Nat.le_gt_cases (batch_size * k) N) as [Le|Gt].
    + rewrite (Nat.min_r N (batch_size * k)) by exact Le.
      replace (Nat.min N (batch_size * S k))
        with (batch_size * k
              + (Nat.min N (batch_size * (k + 1)) - batch_size * k))%nat
        by (replace (k + 1)%nat with (S k) by lia; lia).
      now rewrite seq_app.
    + rewrite (Nat.min_l N (batch_size * k)) by lia.
      replace (Nat.min N (batch_size * (k + 1)) - batch_size * k)%nat
        with 0%nat by lia.
      rewrite (Nat.min_l N (batch_size * S k)) by lia.
      cbn [seq]. apply app_nil_r.
Qed.

Lemma num_batches_bounds (N batch_size : nat) :
  (0 < batch_size)%nat ->
  (N <= batch_size * Adam.num_batches N batch_size)%nat /\
  (forall n, (n < Adam.num_batches N batch_size)%nat ->
             (batch_size * n < N)%nat).
Proof.
  intros Hb. unfold Adam.num_batches.
  pose proof (Nat.div_mod_eq (N + batch_size - 1) batch_size) as E.
  pose proof (Nat.mod_upper_bound (N + batch_size - 1) batch_size
                ltac:(lia)) as U.
  set (K := Nat.div (N + batch_size - 1) batch_size) in *.
  set (r := Nat.modulo (N + batch_size - 1) batch_size) in *.
  split; [lia|].
  intros n Hn.
  assert (batch_size * (n + 1) <= batch_size * K)%nat
    by (apply Nat.mul_le_mono_l; lia).
  lia.
Qed.

(** X10.  For a positive batch size the mini-batches of an epoch, one after
    the other, are exactly the indices [0 .. N-1] in order: every training
    row is visited once per epoch.  No mini-batch is empty, none has more
    than [batch_size] rows, and all but the last have exactly
    [batch_size]. *)
Theorem batches_partition (N batch_size : nat) :
  (0 < batch_size)%nat ->
  concat (map (Adam.batch_of N batch_size)
              (seq 0 (Adam.num_batches N batch_size)))
  = seq 0 N /\
  forall n_batch, (n_batch < Adam.num_batches N batch_size)%nat ->
    Adam.batch_of N batch_size n_batch <> [] /\
    (length (Adam.batch_of N batch_size n_batch) <= batch_size)%nat /\
    ((n_batch + 1 < Adam.num_batches N batch_size)%nat ->
     length (Adam.batch_of N batch_size n_batch) = batch_size).
Proof.
  intros Hb. destruct (num_batches_bounds N batch_size Hb) as [Up Lo].
  split.
  - rewrite batches_prefix. f_equal. lia.
  - intros n Hn. specialize (Lo n Hn) as Ln.
    assert (Len : length (Adam.batch_of N batch_size n)
                  = (Nat.min N (batch_size * (n + 1)) - batch_size * n)%nat)
      by (rewrite batch_of_eq; apply length_seq).
    split; [|split].
    + intros E. rewrite E in Len. cbn in Len. lia.
    + rewrite Len. lia.
    + intros Hn'. rewrite Len. specialize (Lo (n + 1)%nat Hn'). lia.
Qed.

Lemma batches_partition_witness :
  concat (map (Adam.batch_of 5 2) (seq 0 (Adam.num_batches 5 2))) = seq 0 5.
Proof.
  apply (batches_partition 5 2). lia.
Defined.

(** ** Selecting rows *)

Lemma getitem_rows_in_range (M : matrix) (idx : list nat) :
  (forall i, In i idx -> (i < nrows M)%nat) ->
  getitem_rows M idx
  = Ok (Matrix (ncols M) (map (fun i => nth i (rows M) []) idx)).
Proof.
  intros H. unfold getitem_rows.
  rewrite (mapM_ok _ (fun i => nth i (rows M) [])); [reflexivity|].
  intros i Hi. specialize (H i Hi).
  destruct (nth_error (rows M) i) as [r|] eqn:E.
  - f_equal. symmetry. now apply nth_error_nth.
  - apply nth_error_None in E. unfold nrows in H. lia.
Qed.

Lemma getitem_rows_out_of_range (M : matrix) (idx : list nat) :
  (exists i, In i idx /\ (nrows M <= i)%nat) ->
  getitem_rows M idx = Raise IndexError.
Proof.
  intros (i & Hi & Hge). unfold getitem_rows.
  induction idx as [|a idx IH]; [contradiction|].
  cbn [mapM].
  destruct (nth_error (rows M) a) as [r|] eqn:E; cbn [bind].
  - destruct Hi as [->|Hi].
    + assert (Lt : (i < length (rows M))%nat)
        by (apply nth_error_Some; congruence).
      unfold nrows in Hge. lia.
    + specialize (IH Hi).
      destruct (mapM _ idx) as [rs|e]; cbn [bind] in *; [discriminate|].
      exact IH.
  - reflexivity.
Qed.

(** X11.  Selecting the rows [idx] of an array raises [IndexError] exactly
    when some index is not below the number of rows; otherwise it returns
    the selected rows in the order of [idx], and they form a well-formed
    array of the same width when the array is well-formed. *)
Theorem getitem_rows_index_error (M : matrix) (idx : list nat) :
  (getitem_rows M idx = Raise IndexError
   <-> exists i, In i idx /\ (nrows M <= i)%nat) /\
  ((forall i, In i idx -> (i < nrows M)%nat) ->
   exists selected,
     getitem_rows M idx = Ok selected /\
     rows selected = map (fun i => nth i (rows M) []) idx /\
     ncols selected = ncols M /\ nrows selected = length idx /\
     (wf_matrix M -> wf_matrix selected)).
Proof.
  split.
  - split; [|apply getitem_rows_out_of_range].
    intros H.
    destruct (Exists_dec (fun i => (nrows M <= i)%nat) idx
                (fun i => le_dec (nrows M) i)) as [Ex|NEx].
    + apply Exists_exists in Ex. exact Ex.
    + exfalso. rewrite getitem_rows_in_range in H; [discriminate|].
      intros i Hi. destruct (Nat.lt_ge_cases i (nrows M)) as [Lt|Ge]; [exact Lt|].
      exfalso. apply NEx, Exists_exists. eauto.
  - intros H. eexists. split; [now apply getitem_rows_in_range|].
    cbn [rows ncols]. repeat split.
    + unfold nrows. cbn [rows]. apply length_map.
    + intros W. apply wf_map_rows. intros i Hi. apply wf_row; auto.
Qed.

Lemma getitem_rows_index_error_witness :
  exists selected,
    getitem_rows tiny_images [1%nat; 0%nat] = Ok selected /\
    rows selected = map (fun i => nth i (rows tiny_images) []) [1%nat; 0%nat].
Proof.
  destruct (proj2 (getitem_rows_index_error tiny_images [1%nat; 0%nat]))
    as (selected & E & R & _).
  - intros i [<-|[<-|[]]]; cbn; lia.
  - exists selected. split; [exact E | exact R].
Defined.

(** ** Binarization with draws in the unit interval *)

Lemma binarize_spec (selected : matrix) (g : rng) :
  wf_matrix selected ->
  binarize selected g =
  (mtab (nrows selected) (ncols selected) (fun i j =>
     if Rgtb (mget selected i j) (uniform_tape g (i * ncols selected + j))
     then 1.0 else mget selected i j * 0.0),
   after_uniform (nrows selected * ncols selected) g).
Proof.
  intros W. rewrite <- (mtab_mget selected W) at 1.
  now rewrite binarize_mtab.
Qed.

Lemma binarize_entries (selected : matrix) (g : rng) :
  wf_matrix selected ->
  entries (fun t => 0 <= t <= 1) (fst (binarize selected g)).
Proof.
  intros W. rewrite binarize_spec by assumption. cbn [fst].
  intros i j Hi Hj. rewrite nrows_mtab in Hi. rewrite ncols_mtab in Hj.
  rewrite mget_mtab by assumption.
  destruct (Rgtb _ _); lra.
Qed.

(** X12.  When the uniform draws lie in [[0, 1)], binarization turns every
    pixel of intensity at least 1 into 1 and every pixel of intensity at
    most 0 into 0, whatever the draws: an image that is already binary is
    returned unchanged. *)
Theorem binarize_keeps_binary (selected : matrix) (g : rng) :
  uniform_in_unit g -> wf_matrix selected ->
  (forall i j, (i < nrows selected)%nat -> (j < ncols selected)%nat ->
     (1 <= mget selected i j -> mget (fst (binarize selected g)) i j = 1) /\
     (mget selected i j <= 0 -> mget (fst (binarize selected g)) i j = 0)) /\
  (entries (fun t => t = 0 \/ t = 1) selected ->
   fst (binarize selected g) = selected).
Proof.
  intros U W. rewrite binarize_spec by assumption. cbn [fst].
  assert (V : forall i j, (i < nrows selected)%nat -> (j < ncols selected)%nat ->
     (1 <= mget selected i j ->
      (if Rgtb (mget selected i j) (uniform_tape g (i * ncols selected + j))
       then 1.0 else mget selected i j * 0.0) = 1) /\
     (mget selected i j <= 0 ->
      (if Rgtb (mget selected i j) (uniform_tape g (i * ncols selected + j))
       then 1.0 else mget selected i j * 0.0) = 0)).
  { intros i j Hi Hj. pose proof (U (i * ncols selected + j)%nat) as [U0 U1].
    unfold Rgtb.
    destruct (Rgt_dec (mget selected i j)
                      (uniform_tape g (i * ncols selected + j))); split; intros; lra. }
  split.
  - intros i j Hi Hj. rewrite mget_mtab by assumption. now apply V.
  - intros HB. rewrite <- (mtab_mget selected W) at 3.
    apply mtab_ext. intros i j Hi Hj.
    destruct (HB i j Hi Hj) as [E|E].
    + rewrite (proj2 (V i j Hi Hj)) by lra. now rewrite E.
    + rewrite (proj1 (V i j Hi Hj)) by lra. now rewrite E.
Qed.

Lemma constant_rng_in_unit : uniform_in_unit constant_rng.
Proof. intros k. cbn. lra. Defined.

Lemma binarize_keeps_binary_witness :
  fst (binarize binary_target constant_rng) = binary_target.
Proof.
  apply (proj2 (binarize_keeps_binary binary_target constant_rng
                  constant_rng_in_unit wf_binary_target)).
  exact binary_target_entries.
Defined.

(** ** The objective *)

Lemma objective_fits (unflat_params : list R -> result params)
  (train_images : matrix) (batch : list nat) (flattened : list R) (g : rng)
  (gen_params rec_params : list layer) (L : nat) :
  unflat_params flattened = Ok (gen_params, rec_params) ->
  rec_params <> [] -> gen_params <> [] ->
  wf_matrix train_images -> batch <> [] ->
  (forall i, In i batch -> (i < nrows train_images)%nat) ->
  conforms (ncols train_images) rec_params ->
  out_dim (ncols train_images) rec_params = (2 * L)%nat ->
  conforms L gen_params ->
  out_dim L gen_params = ncols train_images ->
  exists estimate,
    objective unflat_params train_images batch flattened g
    = Ok (estimate,
          after_normal (length batch * L)
            (after_uniform (length batch * ncols train_images) g)) /\
    estimate <= 0.
Proof.
  intros HU NR NG WT NB HB CR OR CG OG.
  unfold objective. rewrite HU. cbn [bind].
  rewrite getitem_rows_in_range by assumption. cbn [bind].
  set (selected := Matrix (ncols train_images)
                     (map (fun i => nth i (rows train_images) []) batch)).
  assert (WS : wf_matrix selected).
  { apply wf_map_rows. intros i Hi. apply wf_row; auto. }
  assert (NS : nrows selected = length batch)
    by (unfold selected, nrows; cbn [rows]; apply length_map).
  pose proof (binarize_entries selected g WS) as HE.
  pose proof (binarize_spec selected g WS) as BS.
  destruct (binarize selected g) as [images g1]. cbn [fst] in HE.
  injection BS as EI EG.
  assert (WI : wf_matrix images) by (rewrite EI; apply wf_mtab).
  assert (NI : nrows images = length batch)
    by (rewrite EI, nrows_mtab; exact NS).
  assert (CI : ncols images = ncols train_images) by (rewrite EI; reflexivity).
  destruct (vae_lower_bound_fits gen_params rec_params images g1 L)
    as (estimate & E & Hle); rewrite ?CI; try assumption.
  - rewrite NI. destruct batch; [contradiction | discriminate].
  - exists estimate. split; [|exact Hle].
    rewrite E, NI, EG, NS. reflexivity.
Qed.

(** X13.  An evaluation of the training objective raises nothing and
    returns a value whenever the unflattened parameters fit the training
    images (recognition network from the pixels to [2 * L] columns,
    generator from [L] latent dimensions back to the pixels) and the batch
    is a non-empty list of row indices of the training set; the pixel
    intensities themselves are not constrained, since the batch is
    binarized first.  The evaluation takes one uniform draw per pixel of the
    batch, then [L] normal draws per row. *)
Theorem objective_defined
  (unflat_params : list R -> result params)
  (train_images : matrix) (batch : list nat) (flattened : list R) (g : rng)
  (gen_params rec_params : list layer) (L : nat) :
  unflat_params flattened = Ok (gen_params, rec_params) ->
  rec_params <> [] -> gen_params <> [] ->
  wf_matrix train_images -> batch <> [] ->
  (forall i, In i batch -> (i < nrows train_images)%nat) ->
  conforms (ncols train_images) rec_params ->
  out_dim (ncols train_images) rec_params = (2 * L)%nat ->
  conforms L gen_params ->
  out_dim L gen_params = ncols train_images ->
  exists estimate,
    objective unflat_params train_images batch flattened g
    = Ok (estimate,
          after_normal (length batch * L)
            (after_uniform (length batch * ncols train_images) g)).
Proof.
  intros HU NR NG WT NB HB CR OR CG OG.
  destruct (objective_fits unflat_params train_images batch flattened g
              gen_params rec_params L HU NR NG WT NB HB CR OR CG OG)
    as (estimate & E & _).
  exists estimate. exact E.
Qed.

Lemma objective_defined_witness :
  exists estimate,
    objective (fun _ => Ok (tiny_gen, tiny_rec)) tiny_images [1%nat; 0%nat] []
              constant_rng
    = Ok (estimate,
          after_normal (2 * 1) (after_uniform (2 * ncols tiny_images) constant_rng)).
Proof.
  apply (objective_defined (fun _ => Ok (tiny_gen, tiny_rec))
           tiny_images [1%nat; 0%nat] [] constant_rng tiny_gen tiny_rec 1).
  - reflexivity.
  - exact tiny_rec_nonempty.
  - exact tiny_gen_nonempty.
  - exact wf_tiny_images.
  - discriminate.
  - intros i [<-|[<-|[]]]; cbn; lia.
  - exact tiny_rec_conforms.
  - reflexivity.
  - exact tiny_gen_conforms.
  - reflexivity.
Defined.

(** ** The training loop runs to the end *)


Section TrainingRuns.

Variable objective_grad : list nat -> list R -> rng -> result (list R * rng).
Variable unflat_params : list R -> result params.
Variable train_images : matrix.
Variables N batch_size P L : nat.

(** The gradient of the objective exists at every parameter vector and has
    its shape. *)
Hypothesis objective_grad_defined : forall batch theta g,
  length theta = P ->
  exists grad g1,
    objective_grad batch theta g = Ok (grad, g1) /\ length grad = P.

(** Every vector of [P] numbers unflattens to parameters that fit the
    training images. *)
Hypothesis unflat_params_fits : forall flat,
  length flat = P ->
  exists value, unflat_params flat = Ok value /\ fits (ncols train_images) L value.

Hypothesis train_images_wf : wf_matrix train_images.
Hypothesis N_rows : (N <= nrows train_images)%nat.
Hypothesis batch_size_pos : (0 < batch_size)%nat.





End TrainingRuns.


(** *** A run of the loop on two images *)






Lemma tiny_params_fit : fits (ncols tiny_images) 1 (tiny_gen, tiny_rec).
Proof.
  unfold fits. cbn. repeat split; discriminate.
Defined.




(** ** Parameters at rest *)

(** X16.  A coordinate at rest stays at rest.  In an update from a state the
    loop can be in (see [adam_invariant]), a parameter whose first moment is
    0 and whose gradient entry is 0 keeps its value and its first moment
    stays 0, whatever its second moment is and whatever happens to the
    other coordinates: the step is [alpha * 0 / (sqrt(v_est) + epsilon)].
    In particular the first update, which starts from [m = 0], leaves every
    parameter with a zero gradient entry where it is. *)
Theorem update_keeps_coordinate_at_rest (grad : list R) (st : Adam.state) :
  adam_invariant st ->
  length grad = length (Adam.flattened_current_params st) ->
  exists st',
    Adam.update grad st = Ok st' /\
    forall i, (i < length (Adam.flattened_current_params st))%nat ->
      vget (Adam.m st) i = 0 -> vget grad i = 0 ->
      vget (Adam.flattened_current_params st') i
      = vget (Adam.flattened_current_params st) i /\
      vget (Adam.m st') i = 0.
Proof.
  intros Inv Lg. eexists.
  split; [exact (update_value grad st Inv Lg)|].
  cbn [Adam.flattened_current_params Adam.m].
  intros i Hi Hm Hg. rewrite !vget_vtab by assumption.
  unfold adam_theta, adam_m. cbv zeta. rewrite Hm, Hg. split.
  - unfold Rdiv. ring.
  - ring.
Qed.

Lemma update_keeps_coordinate_at_rest_witness :
  exists st',
    Adam.update resting_grads (Adam.init two_params) = Ok st' /\
    vget (Adam.flattened_current_params st') 0 = vget two_params 0.
Proof.
  destruct (update_keeps_coordinate_at_rest resting_grads (Adam.init two_params)
              (init_invariant two_params) eq_refl) as (st' & U & H).
  exists st'. split; [exact U|].
  apply (H 0%nat).
  - cbn. lia.
  - apply vget_zeros_like.
  - cbn. lra.
Defined.



Section StationaryPoint.

Variable objective_grad : list nat -> list R -> rng -> result (list R * rng).
Variable unflat_params : list R -> result params.
Variable train_images : matrix.
Variables N batch_size L : nat.
Variable theta : list R.

(** At [theta] the gradient of the objective is zero, for every mini-batch
    and every state of the generator. *)
Hypothesis stationary : forall batch g,
  exists grad g1,
    objective_grad batch theta g = Ok (grad, g1) /\
    length grad = length theta /\ forall i, vget grad i = 0.

Hypothesis theta_fits :
  exists value,
    unflat_params theta = Ok value /\ fits (ncols train_images) L value.

Hypothesis train_images_wf : wf_matrix train_images.
Hypothesis N_rows : (N <= nrows train_images)%nat.
Hypothesis batch_size_pos : (0 < batch_size)%nat.




End StationaryPoint.




(** ** One row of a batch *)

(** X17.  On a batch that fits, every row of the result of
    [neural_net_predict] is the result of [neural_net_predict] on that row
    alone: the rows of a batch do not influence each other. *)
Theorem neural_net_predict_row_by_row (params : list layer) (inputs : matrix) :
  params <> [] -> wf_matrix inputs -> conforms (ncols inputs) params ->
  exists outputs,
    neural_net_predict params inputs = Ok outputs /\
    nrows outputs = nrows inputs /\
    forall i, (i < nrows inputs)%nat ->
      neural_net_predict params (nth i (rows inputs) [])
      = Ok (nth i (rows outputs) []).
Proof.
  intros NE WX C. destruct (exists_last NE) as (ps & [W b] & ->).
  destruct inputs as [c rs]. cbn [ncols] in C.
  eexists. split; [now apply neural_net_predict_matrix|].
  unfold nrows. cbn [rows]. split; [apply length_map|].
  intros i Hi.
  rewrite (nth_indep (map (forward (ps ++ [(W, b)])) rs) []
             (forward (ps ++ [(W, b)]) []))
    by (rewrite length_map; exact Hi).
  rewrite map_nth. apply neural_net_predict_vector.
  pose proof (wf_row (Matrix c rs) i WX Hi) as Lr. cbn [rows ncols] in Lr.
  now rewrite Lr.
Qed.

Lemma neural_net_predict_row_by_row_witness :
  exists outputs,
    neural_net_predict tiny_net tiny_batch = Ok outputs /\
    nrows outputs = nrows tiny_batch /\
    forall i, (i < nrows tiny_batch)%nat ->
      neural_net_predict tiny_net (nth i (rows tiny_batch) [])
      = Ok (nth i (rows outputs) []).
Proof.
  exact (neural_net_predict_row_by_row tiny_net tiny_batch
           tiny_net_nonempty wf_tiny_batch tiny_net_conforms).
Defined.

(** ** Images generated after training *)

(** X18.  Sampling from the prior: for a generator whose layer shapes chain
    from [latent_dim], the script's prior sampling raises nothing and
    returns [num_images] rows of as many pixels as the last layer has
    columns.  Image [i] is the sigmoid of the generator's output on the
    normal draws number [i * latent_dim] to [(i + 1) * latent_dim - 1]
    alone, so the images are decoded independently of each other; the
    sampling takes [num_images * latent_dim] normal draws. *)
Theorem prior_images_layout (gen_params : list layer)
  (num_images latent_dim : nat) (g : rng) :
  gen_params <> [] -> conforms latent_dim gen_params ->
  exists images,
    prior_images gen_params num_images latent_dim g
    = Ok (images, after_normal (num_images * latent_dim) g) /\
    wf_matrix images /\ nrows images = num_images /\
    ncols images = out_dim latent_dim gen_params /\
    forall i, (i < num_images)%nat ->
      exists x,
        neural_net_predict gen_params
          (vtab latent_dim (fun j => normal_tape g (i * latent_dim + j)))
        = Ok x /\
        nth i (rows images) [] = vmap sigmoid x.
Proof.
  intros NG CG. destruct (exists_last NG) as (gs & [GW gb] & ->).
  unfold prior_images, npr_randn.
  set (z := mtab num_images latent_dim
              (fun i j => normal_tape g (i * latent_dim + j))).
  replace z with (Matrix latent_dim (rows z)) by reflexivity.
  rewrite neural_net_predict_matrix;
    [|apply (wf_mtab num_images latent_dim)|exact CG].
  cbn [bind]. eexists. split; [reflexivity|].
  assert (Lf : forall r, In r (rows z) ->
                 length (forward (gs ++ [(GW, gb)]) r) = ncols GW)
    by (intros r _; rewrite forward_snoc; apply length_affine_row).
  assert (Nz : length (rows z) = num_images) by apply nrows_mtab.
  split; [|split; [|split; [|]]].
  - unfold mmap. cbn [rows ncols]. rewrite map_map.
    apply wf_map_rows. intros r Hr. unfold vmap. rewrite length_map. now apply Lf.
  - rewrite nrows_mmap. unfold nrows. cbn [rows]. now rewrite length_map.
  - cbn [ncols mmap]. now rewrite out_dim_app.
  - intros i Hi.
    exists (forward (gs ++ [(GW, gb)])
              (vtab latent_dim (fun j => normal_tape g (i * latent_dim + j)))).
    split.
    + apply neural_net_predict_vector. now rewrite length_vtab.
    + unfold mmap, z, mtab. cbn [rows]. rewrite !map_map.
      now rewrite (nth_map_seq
                     (fun i0 => vmap sigmoid
                        (forward (gs ++ [(GW, gb)])
                           (vtab latent_dim
                              (fun j => normal_tape g (i0 * latent_dim + j)))))).
Qed.

Lemma prior_images_layout_witness :
  exists images,
    prior_images tiny_gen 3 1 constant_rng
    = Ok (images, after_normal (3 * 1) constant_rng) /\
    wf_matrix images /\ nrows images = 3%nat /\
    ncols images = out_dim 1 tiny_gen /\
    forall i, (i < 3)%nat ->
      exists x,
        neural_net_predict tiny_gen
          (vtab 1 (fun j => normal_tape constant_rng (i * 1 + j)))
        = Ok x /\
        nth i (rows images) [] = vmap sigmoid x.
Proof.
  apply (prior_images_layout tiny_gen 3 1 constant_rng).
  - exact tiny_gen_nonempty.
  - exact tiny_gen_conforms.
Defined.

(** X19.  Reconstruction: for parameters that fit the test images, the
    script's reconstruction takes the first [k = min(10, number of test
    images)] images (all of them when there are fewer than ten, none being
    an error), and returns [2 * k] rows: the [k] originals unchanged,
    followed by their [k] reconstructions in the same order.  Reconstruction
    [i] depends on test image [i] alone: it is the sigmoid of the
    generator's output on the latent sample [mean + exp(log_std) * noise],
    where the mean and the log-standard-deviation are the recognition
    network's output on image [i] and the noise is the normal draws number
    [i * L] to [(i + 1) * L - 1].  The script takes [k * L] normal draws. *)
Theorem reconstruction_images_layout (gen_params rec_params : list layer)
  (test_images : matrix) (g : rng) (L : nat) :
  fits (ncols test_images) L (gen_params, rec_params) ->
  wf_matrix test_images ->
  let k := Nat.min 10 (nrows test_images) in
  exists images,
    reconstruction_images gen_params rec_params test_images g
    = Ok (images, after_normal (k * L) g) /\
    nrows images = (2 * k)%nat /\ ncols images = ncols test_images /\
    (forall i, (i < k)%nat ->
       nth i (rows images) [] = nth i (rows test_images) []) /\
    (forall i, (i < k)%nat ->
       exists e x,
         neural_net_predict rec_params (nth i (rows test_images) []) = Ok e /\
         neural_net_predict gen_params
           (vtab L (fun j =>
              vget e j + exp (vget e (L + j)) * normal_tape g (i * L + j)))
         = Ok x /\
         nth (k + i) (rows images) [] = vmap sigmoid x).
Proof.
  intros (NR & NG & CR & OR & CG & OG) WT k. cbn [fst snd] in *.
  destruct (exists_last NR) as (rs & [RW rb] & ->).
  destruct (exists_last NG) as (gs & [GW gb] & ->).
  assert (ER : ncols RW = (2 * L)%nat) by (rewrite out_dim_app in OR; exact OR).
  assert (EG : ncols GW = ncols test_images)
    by (rewrite out_dim_app in OG; exact OG).
  unfold reconstruction_images, rows_to.
  set (first := firstn 10 (rows test_images)).
  assert (Lk : length first = k) by (unfold first, k, nrows; apply length_firstn).
  assert (WF : wf_matrix (Matrix (ncols test_images) first)).
  { unfold wf_matrix in *. cbn [rows ncols]. rewrite Forall_forall in *.
    intros r Hr. apply WT. unfold first in Hr.
    rewrite <- (firstn_skipn 10 (rows test_images)).
    apply in_or_app. now left. }
  assert (Fi : forall i, (i < k)%nat ->
                 nth i first [] = nth i (rows test_images) []).
  { intros i Hi. unfold first. rewrite nth_firstn.
    destruct (Nat.ltb_spec i 10); [reflexivity|]. unfold k in Hi. lia. }
  rewrite neural_net_predict_matrix by assumption. cbn [bind].
  set (enc := Matrix (ncols RW) (map (forward (rs ++ [(RW, rb)])) first)).
  assert (WE : wf_matrix enc).
  { apply wf_map_rows. intros r _. rewrite forward_snoc. apply length_affine_row. }
  assert (NE : nrows enc = k)
    by (unfold enc, nrows; cbn [rows]; now rewrite length_map).
  rewrite (sample_value enc L g WE ER). cbn [bind]. rewrite NE.
  set (z := mtab k L (fun i j =>
              mget enc i j + exp (mget enc i (L + j)) * normal_tape g (i * L + j))).
  replace z with (Matrix L (rows z)) by reflexivity.
  rewrite neural_net_predict_matrix; [|apply (wf_mtab k L)|exact CG].
  cbn [bind]. unfold np_append_axis0. cbn [ncols mmap].
  rewrite EG, Nat.eqb_refl. cbn [bind]. eexists. split; [reflexivity|].
  assert (Nz : length (rows z) = k) by apply nrows_mtab.
  cbn [rows ncols mmap]. split; [|split; [reflexivity|split]].
  - unfold nrows. cbn [rows]. rewrite length_app, !length_map, Lk, Nz. lia.
  - intros i Hi. rewrite app_nth1 by (rewrite Lk; exact Hi). now apply Fi.
  - intros i Hi.
    exists (forward (rs ++ [(RW, rb)]) (nth i (rows test_images) [])).
    eexists. split; [|split].
    + apply neural_net_predict_vector.
      rewrite (wf_row test_images i WT) by (unfold k in Hi; lia). exact CR.
    + apply neural_net_predict_vector. now rewrite length_vtab.
    + rewrite app_nth2 by (rewrite Lk; lia). rewrite Lk.
      replace (k + i - k)%nat with i by lia.
      unfold z, mtab. cbn [rows]. rewrite !map_map.
      rewrite (nth_map_seq
                 (fun i0 => vmap sigmoid
                    (forward (gs ++ [(GW, gb)])
                       (vtab L (fun j =>
                          mget enc i0 j
                          + exp (mget enc i0 (L + j)) * normal_tape g (i0 * L + j))))))
        by exact Hi.
      do 2 f_equal. apply vtab_ext. intros j Hj.
      unfold enc. rewrite !mget_map_rows by (rewrite Lk; exact Hi).
      now rewrite (Fi i Hi).
Qed.

Lemma reconstruction_images_layout_witness :
  exists images,
    reconstruction_images tiny_gen tiny_rec tiny_images constant_rng
    = Ok (images, after_normal (2 * 1) constant_rng) /\
    nrows images = 4%nat.
Proof.
  destruct (reconstruction_images_layout tiny_gen tiny_rec tiny_images
              constant_rng 1 tiny_params_fit wf_tiny_images)
    as (images & E & N & _).
  exists images. split; [exact E | exact N].
Defined.

(** ** The interpolation loop *)

Lemma mapM_first_error {A B : Type} (f : A -> result B) (l1 l2 : list A)
  (x : A) (e : error) :
  (forall y, In y l1 -> exists v, f y = Ok v) -> f x = Raise e ->
  mapM f (l1 ++ x :: l2) = Raise e.
Proof.
  intros H1 Hx. induction l1 as [|y l1 IH]; cbn [app mapM].
  - now rewrite Hx.
  - destruct (H1 y (or_introl eq_refl)) as [v ->]. cbn [bind].
    rewrite IH by (intros; apply H1; now right). reflexivity.
Qed.

Lemma getitem_row_in_range (M : matrix) (i : nat) :
  wf_matrix M -> (i < nrows M)%nat ->
  getitem_row M i = Ok (nth i (rows M) []) /\
  length (nth i (rows M) []) = ncols M.
Proof.
  intros W Hi. split; [|now apply wf_row].
  unfold getitem_row. destruct (nth_error (rows M) i) as [r|] eqn:E.
  - f_equal. symmetry. now apply nth_error_nth.
  - apply nth_error_None in E. unfold nrows in Hi. lia.
Qed.

Lemma getitem_row_out_of_range (M : matrix) (i : nat) :
  (nrows M <= i)%nat -> getitem_row M i = Raise IndexError.
Proof.
  intros Hi. unfold getitem_row.
  destruct (nth_error (rows M) i) as [r|] eqn:E; [|reflexivity].
  assert ((i < length (rows M))%nat) by (apply nth_error_Some; congruence).
  unfold nrows in Hi. lia.
Qed.

Lemma interpolate_defined (gen_params rec_params : list layer)
  (image1 image2 : list R) (width L : nat) :
  fits width L (gen_params, rec_params) ->
  length image1 = width -> length image2 = width ->
  exists images,
    interpolate gen_params rec_params image1 image2 = Ok images /\
    nrows images = 25%nat /\ ncols images = width.
Proof.
  intros (NR & NG & CR & OR & CG & OG) L1 L2. cbn [fst snd] in *.
  assert (D : Nat.div (out_dim width rec_params) 2 = L).
  { rewrite OR, Nat.mul_comm. apply Nat.div_mul. lia. }
  pose proof (interpolate_value gen_params rec_params image1 image2 width
                NR NG L1 L2 CR) as V.
  rewrite D in V. specialize (V CG). cbv zeta in V.
  destruct V as (_ & _ & _ & _ & _ & _ & V).
  eexists. split; [exact V|]. split.
  - unfold nrows. cbn [rows]. rewrite length_map. apply length_linspace.
  - exact OG.
Qed.

(** X20.  The interpolation loop reads the test images 0 to 9.  For
    parameters that fit well-formed test images: with at least ten test
    images it returns five arrays of 25 rows each, as wide as an image; with
    fewer than ten it raises [IndexError]. *)
Theorem interpolation_loop_needs_ten_images (gen_params rec_params : list layer)
  (test_images : matrix) (L : nat) :
  fits (ncols test_images) L (gen_params, rec_params) ->
  wf_matrix test_images ->
  ((10 <= nrows test_images)%nat ->
   exists saved,
     interpolation_loop gen_params rec_params test_images = Ok saved /\
     length saved = 5%nat /\
     forall images, In images saved ->
       nrows images = 25%nat /\ ncols images = ncols test_images) /\
  ((nrows test_images < 10)%nat ->
   interpolation_loop gen_params rec_params test_images = Raise IndexError).
Proof.
  intros F WT.
  assert (OKAY : forall i, (i * 2 + 1 < nrows test_images)%nat ->
            exists images,
              (image1 <- getitem_row test_images (i * 2) ;;
               image2 <- getitem_row test_images (i * 2 + 1) ;;
               interpolate gen_params rec_params image1 image2) = Ok images /\
              nrows images = 25%nat /\ ncols images = ncols test_images).
  { intros i Hi.
    destruct (getitem_row_in_range test_images (i * 2) WT ltac:(lia)) as [E1 L1].
    destruct (getitem_row_in_range test_images (i * 2 + 1) WT Hi) as [E2 L2].
    rewrite E1. cbn [bind]. rewrite E2. cbn [bind].
    now apply (interpolate_defined _ _ _ _ (ncols test_images) L). }
  split.
  - intros H10. unfold interpolation_loop, num_interpolations.
    assert (G : forall l, (forall i, In i l -> (i < 5)%nat) ->
              exists saved,
                mapM (fun i =>
                        image1 <- getitem_row test_images (i * 2) ;;
                        image2 <- getitem_row test_images (i * 2 + 1) ;;
                        interpolate gen_params rec_params image1 image2) l
                = Ok saved /\ length saved = length l /\
                forall images, In images saved ->
                  nrows images = 25%nat /\ ncols images = ncols test_images).
    { induction l as [|i l IH]; intros Hl.
      - exists []. cbn. repeat split; auto; contradiction.
      - destruct (OKAY i) as (m & Em & Nm & Cm).
        { specialize (Hl i (or_introl eq_refl)). lia. }
        destruct IH as (saved & Es & Ls & Fs); [intros; apply Hl; now right|].
        exists (m :: saved). cbn [mapM]. rewrite Em. cbn [bind].
        rewrite Es. cbn [bind]. split; [reflexivity|].
        split; [cbn; lia|]. intros images [<-|Hi]; [now split | now apply Fs]. }
    destruct (G (seq 0 5)) as (saved & E & Ls & Fs).
    { intros i Hi. apply in_seq in Hi. lia. }
    exists saved. split; [exact E|]. split; [exact Ls | exact Fs].
  - intros Hlt. unfold interpolation_loop, num_interpolations.
    set (k := Nat.div (nrows test_images) 2).
    pose proof (Nat.div_mod_eq (nrows test_images) 2) as DM.
    pose proof (Nat.mod_upper_bound (nrows test_images) 2 ltac:(lia)) as MU.
    fold k in DM.
    assert (Hk : (k < 5)%nat) by lia.
    replace (seq 0 5) with (seq 0 k ++ k :: seq (S k) (4 - k)).
    + apply mapM_first_error.
      * intros i Hi. apply in_seq in Hi.
        destruct (OKAY i) as (m & Em & _); [lia|]. eauto.
      * destruct (Nat.lt_ge_cases (k * 2) (nrows test_images)) as [Lt|Ge].
        -- destruct (getitem_row_in_range test_images (k * 2) WT Lt) as [E1 _].
           rewrite E1. cbn [bind].
           rewrite getitem_row_out_of_range by lia. reflexivity.
        -- rewrite getitem_row_out_of_range by exact Ge. reflexivity.
    + transitivity (seq 0 (k + S (4 - k))); [|f_equal; lia].
      rewrite seq_app. reflexivity.
Qed.

Lemma interpolation_loop_needs_ten_images_witness :
  interpolation_loop tiny_gen tiny_rec tiny_images = Raise IndexError.
Proof.
  apply (proj2 (interpolation_loop_needs_ten_images tiny_gen tiny_rec
                  tiny_images 1 tiny_params_fit wf_tiny_images)).
  cbn. lia.
Defined.
